(** * Alignment engine of the video-understanding system

    A shallow embedding of the action/instruction alignment code of
    [src/ai_agent.py], [src/live_analyzer.py] and [src/analyzer.py]:
    the word-overlap score, the merger of consecutive detected actions,
    the batch matcher that reads the model's reply, and the live
    compliance tracker.

    Conventions of the embedding.
    - A Python [str] is a list of Unicode code points ([text]).
    - A finite Python [float] is the rational it denotes ([Q]), and
      comparisons of floats are comparisons of rationals.  The
      subtraction of two time stamps and the reading of a decimal
      literal by [float()] round their exact result to the nearest
      double, ties to even ([Float64.round64], [fsub]).  A result of
      magnitude 2^1024 or more stands for the infinity of its sign: the
      code only compares such a result with finite values.  The scores
      are quotients of two set sizes, kept exact, and are compared with
      [0.25], [0.3], [0.5] or with one another.
    - A Python exception is the [Raise] result of the [result] monad.
    - The language model is outside the code: its replies are inputs.
    - Objects are values: the actions passed to the merger are distinct
      objects, as [analyze_video_sequence] builds them. *)

From Stdlib Require Import QArith Qabs Qminmax Qpower Qround Lqa.
From stdpp Require Import gmap strings list sorting pretty.

Local Open Scope Z_scope.
Local Open Scope Q_scope.

(** ** Text *)

Module Text.

Definition char := N.
Definition text := list char.

(** Reading of a UTF-8 source literal as code points (literals of up to
    three bytes per code point occur in the sources). *)
Fixpoint utf8_bytes (l : list N) : text :=
  match l with
  | [] => []
  | b1 :: l1 =>
      if (b1 <? 128)%N then b1 :: utf8_bytes l1
      else match l1 with
           | [] => [b1]
           | b2 :: l2 =>
               if (b1 <? 224)%N
               then ((b1 - 192) * 64 + (b2 - 128))%N :: utf8_bytes l2
               else match l2 with
                    | [] => [b1; b2]
                    | b3 :: l3 =>
                        ((b1 - 224) * 4096 + (b2 - 128) * 64 + (b3 - 128))%N
                          :: utf8_bytes l3
                    end
           end
  end.

Definition utf8 (s : string) : text :=
  utf8_bytes (map Ascii.N_of_ascii (String.list_ascii_of_string s)).

(** [str(n)] for a Python [int]. *)
Definition str_of_int (n : Z) : text := utf8 (pretty n).
Definition str_of_len (n : nat) : text := utf8 (pretty n).

(** [str.isspace] on one code point; it is also the class [\s] of [re]
    on [str] patterns and the separator set of [str.split()]. *)
Definition isspace (c : char) : bool :=
  ((9 <=? c) && (c <=? 13) || (28 <=? c) && (c <=? 32)
   || (c =? 133) || (c =? 160) || (c =? 5760)
   || (8192 <=? c) && (c <=? 8202)
   || (c =? 8232) || (c =? 8233) || (c =? 8239) || (c =? 8287)
   || (c =? 12288))%N.

(** [s.split()]: the maximal runs of non-space code points, in order. *)
Fixpoint split_aux (cur : text) (s : text) : list text :=
  match s with
  | [] => if bool_decide (cur = []) then [] else [cur]
  | c :: s' =>
      if isspace c
      then (if bool_decide (cur = []) then split_aux [] s'
            else cur :: split_aux [] s')
      else split_aux (cur ++ [c]) s'
  end.

Definition split (s : text) : list text := split_aux [] s.

(** [s.strip()] *)
Fixpoint lstrip (s : text) : text :=
  match s with
  | c :: s' => if isspace c then lstrip s' else s
  | [] => []
  end.

Definition strip (s : text) : text := reverse (lstrip (reverse (lstrip s))).

(** [str.lower] follows the Unicode tables of the interpreter.  The model
    takes it as a parameter: the general properties hold for every
    table, and the worked inputs use [basic_table] below. *)
Class CaseTable := { lower : text -> text }.

(** The table restricted to the Latin and Russian alphabets, in which the
    instructions and the prompts of the repository are written. *)
Definition lower_char (c : char) : char :=
  (if (65 <=? c) && (c <=? 90) then c + 32
   else if (1040 <=? c) && (c <=? 1071) then c + 32
   else if (1024 <=? c) && (c <=? 1039) then c + 80
   else c)%N.

Definition basic_table : CaseTable := {| lower := map lower_char |}.

End Text.

Export Text.
#[export] Existing Instance basic_table.

(** ** Numbers and results *)

Definition Qltb (x y : Q) : bool :=
  match x ?= y with Lt => true | _ => false end.
Definition Qleb (x y : Q) : bool :=
  match x ?= y with Gt => false | _ => true end.
Definition Qeqb (x y : Q) : bool :=
  match x ?= y with Eq => true | _ => false end.

(** Python's two-argument [max], [min] and [abs] on floats. *)
Definition py_max (x y : Q) : Q := if Qltb x y then y else x.
Definition py_min (x y : Q) : Q := if Qltb y x then y else x.
Definition py_abs (x : Q) : Q := if Qltb x 0 then - x else x.

(** ** Double precision

    The doubles are the rationals [m * 2^e] with [|m| <= 2^53] and
    [e >= -1074].  [round64 x] is the double nearest to [x], the one of
    even [m] when two are equally near: the result of every IEEE 754
    operation of the interpreter is the rounding of its exact result. *)

Module Float64.

(** The integer nearest to [x], the even one on a tie. *)
Definition round_half_even (x : Q) : Z :=
  let q := Qfloor x in
  match Qcompare (x - inject_Z q) (1 # 2) with
  | Lt => q
  | Gt => (q + 1)%Z
  | Eq => if Z.even q then q else (q + 1)%Z
  end.

(** The integer [k] with [2^k <= x < 2^(k+1)], for [x > 0]. *)
Definition ilog2 (x : Q) : Z :=
  let k := (Z.log2 (Qnum x) - Z.log2 (Zpos (Qden x)))%Z in
  if Qleb (2 ^ k) x then k else (k - 1)%Z.

(** The exponent of the last place of the doubles around [x > 0]: 53
    significant bits, and [2^-1074] below the normal range. *)
Definition ulp_exponent (x : Q) : Z := Z.max (ilog2 x - 52) (-1074).

(** The multiple of [2^e] nearest to [x]. *)
Definition round_to (e : Z) (x : Q) : Q :=
  inject_Z (round_half_even (x / 2 ^ e)) * 2 ^ e.

Definition round_pos (x : Q) : Q := round_to (ulp_exponent x) x.

Definition round64 (x : Q) : Q :=
  Qred match x ?= 0 with
       | Eq => 0
       | Gt => round_pos x
       | Lt => - round_pos (- x)
       end.

End Float64.

(** [x - y] on floats. *)
Definition fsub (x y : Q) : Q := Float64.round64 (x - y).

Inductive exn := ValueError (msg : text).

Inductive result (A : Type) :=
| Ok (a : A)
| Raise (e : exn).
Arguments Ok {A} a.
Arguments Raise {A} e.

#[export] Instance result_ret : MRet result := fun A a => Ok a.
#[export] Instance result_bind : MBind result := fun A B f m =>
  match m with Ok a => f a | Raise e => Raise e end.

(** ** Regular expressions (the fragment of [re] the code uses)

    [re.search] is a backtracking matcher: alternatives are tried in
    order, quantifiers are greedy, and the first start position that
    admits a match wins.  [exec] runs a pattern on a suffix of the
    subject with the groups bound so far and a continuation for the rest
    of the pattern. *)

Module Re.

Inductive regex :=
| Eps
| Lit (c : char)
| OneOf (p : char -> bool)
| Cat (r1 r2 : regex)
| Alt (r1 r2 : regex)
| Star (r : regex)
| Opt (r : regex)
| Group (n : nat) (r : regex).

Definition Plus (r : regex) : regex := Cat r (Star r).

Fixpoint Lits (s : text) : regex :=
  match s with
  | [] => Eps
  | c :: s' => Cat (Lit c) (Lits s')
  end.

(** The code points that [re.IGNORECASE] identifies, for the letters of
    the patterns of the repository (upper-case form first): besides the
    two cases of a letter, [S] also matches U+017F, [Д] U+1C81 and [Т]
    U+1C84 and U+1C85.  Every other literal of the patterns (digits,
    space, punctuation) matches itself only. *)
Definition case_classes : list (list char) :=
  [ [0x428; 0x448]; [0x410; 0x430]; [0x413; 0x433];
    [0x44; 0x64]; [0x41; 0x61]; [0x4e; 0x6e]; [0x45; 0x65];
    [0x54; 0x74]; [0x59; 0x79]; [0x53; 0x73; 0x17f]; [0x4f; 0x6f];
    [0x414; 0x434; 0x1c81]; [0x41d; 0x43d]; [0x415; 0x435];
    [0x422; 0x442; 0x1c84; 0x1c85] ]%N.

Definition ignorecase_eq (c x : char) : bool :=
  (x =? c)%N
  || existsb (fun cls => bool_decide (c ∈ cls) && bool_decide (x ∈ cls))
       case_classes.

(** [str.upper] on a text made of such letters (a matched verdict). *)
Definition upper_char (x : char) : char :=
  match List.find (fun cls => bool_decide (x ∈ cls)) case_classes with
  | Some (u :: _) => u
  | _ => x
  end.
Definition upper (s : text) : text := map upper_char s.

Definition groups := gmap nat text.

Section Exec.
Variable ignorecase : bool.

Definition lit_matches (c x : char) : bool :=
  if ignorecase then ignorecase_eq c x else (x =? c)%N.

Fixpoint exec (r : regex) (s : text) (g : groups)
    (k : text -> groups -> option groups) {struct r} : option groups :=
  match r with
  | Eps => k s g
  | Lit c =>
      match s with
      | x :: s' => if lit_matches c x then k s' g else None
      | [] => None
      end
  | OneOf p =>
      match s with
      | x :: s' => if p x then k s' g else None
      | [] => None
      end
  | Cat r1 r2 => exec r1 s g (fun s' g' => exec r2 s' g' k)
  | Alt r1 r2 =>
      match exec r1 s g k with
      | Some m => Some m
      | None => exec r2 s g k
      end
  | Opt r1 =>
      match exec r1 s g k with
      | Some m => Some m
      | None => k s g
      end
  | Star r1 =>
      (fix loop (fuel : nat) (s : text) (g : groups) {struct fuel} :=
         match fuel with
         | O => k s g
         | S fuel' =>
             match exec r1 s g (fun s' g' =>
                     if bool_decide (length s' < length s)%nat
                     then loop fuel' s' g' else None) with
             | Some m => Some m
             | None => k s g
             end
         end) (length s) s g
  | Group n r1 =>
      exec r1 s g (fun s' g' =>
        k s' (<[n := take (length s - length s') s]> g'))
  end.

(** [re.search(pattern, s)]: the groups of the leftmost match. *)
Fixpoint search (r : regex) (s : text) : option groups :=
  match exec r s ∅ (fun _ g => Some g) with
  | Some g => Some g
  | None =>
      match s with
      | [] => None
      | _ :: s' => search r s'
      end
  end.

End Exec.

(** [\s], [.] and the two bracket classes of the patterns *)
Definition space : regex := OneOf isspace.
Definition dot : regex := OneOf (fun c => negb (c =? 10)%N).
Definition not_bracket_dash : regex :=
  OneOf (fun c => negb ((c =? 93) || (c =? 45))%N).
Definition digit_or_dot : regex :=
  OneOf (fun c => ((48 <=? c) && (c <=? 57) || (c =? 46))%N).

End Re.

(** ** Data model ([src/models.py]) *)

Module InstructionStep.
Record t := mk {
  step_number : Z;
  description : text;
  expected_duration_seconds : option Q;
  critical : bool }.
End InstructionStep.

Module Instruction.
Record t := mk {
  title : text;
  steps : list InstructionStep.t }.
End Instruction.

Module DetectedAction.
Record t := mk {
  description : text;
  timestamp_start : Q;
  timestamp_end : Q;
  confidence : Q }.
End DetectedAction.

Module ActionMatch.
Record t := mk {
  step_number : Z;
  matched : bool;
  detected_action : option DetectedAction.t;
  deviation : option text }.
End ActionMatch.

(** ** The agent ([src/ai_agent.py], class VideoAnalysisAgent) *)

Module VideoAnalysisAgent.
Section Agent.
Context {table : CaseTable}.

(** [set(desc.lower().split())] *)
Definition word_set (desc : text) : gset text :=
  list_to_set (split (lower desc)).

Definition _calculate_match_score (instruction_desc action_desc : text) : Q :=
  let words1 := word_set instruction_desc in
  let words2 := word_set action_desc in
  if bool_decide (words1 = ∅) || bool_decide (words2 = ∅) then 0
  else
    let intersection := size (words1 ∩ words2) in
    let union := size (words1 ∪ words2) in
    inject_Z (Z.of_nat intersection) / inject_Z (Z.of_nat union).

Definition _are_similar_descriptions (desc1 desc2 : text) : bool :=
  let words1 := word_set desc1 in
  let words2 := word_set desc2 in
  if bool_decide (words1 = ∅) || bool_decide (words2 = ∅) then false
  else
    let intersection := size (words1 ∩ words2) in
    let union := size (words1 ∪ words2) in
    Qltb (1 # 2) (inject_Z (Z.of_nat intersection) / inject_Z (Z.of_nat union)).

(** One turn of the loop of [_merge_similar_actions]: [merged[-1]] is
    either extended in place or followed by [action].  [merged] starts
    as [[actions[0]]] and never shrinks, so [merged[-1]] exists. *)
Definition merge_step (merged : list DetectedAction.t)
    (action : DetectedAction.t) : list DetectedAction.t :=
  match last merged with
  | None => merged ++ [action]
  | Some last_action =>
      let time_gap :=
        fsub (DetectedAction.timestamp_start action)
             (DetectedAction.timestamp_end last_action) in
      if Qltb time_gap 10
         && _are_similar_descriptions
              (DetectedAction.description last_action)
              (DetectedAction.description action)
      then
        <[pred (length merged) :=
            DetectedAction.mk
              (DetectedAction.description last_action)
              (DetectedAction.timestamp_start last_action)
              (DetectedAction.timestamp_end action)
              (DetectedAction.confidence last_action)]> merged
      else merged ++ [action]
  end.

Definition _merge_similar_actions (actions : list DetectedAction.t)
    : list DetectedAction.t :=
  match actions with
  | [] => []
  | first :: rest => fold_left merge_step rest [first]
  end.

(** The pattern of the reply line of step [n], token by token:
    Шаг n : \s* ( DA | NET | YES | NO | ДА | НЕТ ) \s* - \s* \[?
    ( [^\]\-]+ )? \]? \s* -? \s* ( . * )
    with three groups: the verdict, the time range, the comment. *)
Definition step_pattern (n : Z) : Re.regex :=
  let verdict :=
    Re.Alt (Re.Lits (utf8 "DA")) (Re.Alt (Re.Lits (utf8 "NET"))
      (Re.Alt (Re.Lits (utf8 "YES")) (Re.Alt (Re.Lits (utf8 "NO"))
        (Re.Alt (Re.Lits (utf8 "ДА")) (Re.Lits (utf8 "НЕТ")))))) in
  Re.Cat (Re.Lits (utf8 "Шаг " ++ str_of_int n ++ utf8 ":"))
  (Re.Cat (Re.Star Re.space)
  (Re.Cat (Re.Group 1 verdict)
  (Re.Cat (Re.Star Re.space)
  (Re.Cat (Re.Lit 45%N)
  (Re.Cat (Re.Star Re.space)
  (Re.Cat (Re.Opt (Re.Lit 91%N))
  (Re.Cat (Re.Opt (Re.Group 2 (Re.Plus Re.not_bracket_dash)))
  (Re.Cat (Re.Opt (Re.Lit 93%N))
  (Re.Cat (Re.Star Re.space)
  (Re.Cat (Re.Opt (Re.Lit 45%N))
  (Re.Cat (Re.Star Re.space)
          (Re.Group 3 (Re.Star Re.dot))))))))))))).

(** The pattern of the time range, token by token:
    ( [0-9.]+ ) \s* с? \s* (?: - \s* ( [0-9.]+ ) \s* с? )? *)
Definition time_pattern : Re.regex :=
  let sec := Re.Opt (Re.Lit 0x441%N) in
  Re.Cat (Re.Group 1 (Re.Plus Re.digit_or_dot))
  (Re.Cat (Re.Star Re.space)
  (Re.Cat sec
  (Re.Cat (Re.Star Re.space)
          (Re.Opt
             (Re.Cat (Re.Lit 45%N)
             (Re.Cat (Re.Star Re.space)
             (Re.Cat (Re.Group 2 (Re.Plus Re.digit_or_dot))
             (Re.Cat (Re.Star Re.space) sec)))))))).

(** [float(s)] on a text matched by [[0-9.]+]: digits with at most one
    dot and at least one digit, read as the double nearest to the
    decimal; anything else raises [ValueError]. *)
Definition is_digit (c : char) : bool := ((48 <=? c) && (c <=? 57))%N.

Definition digits_value (s : text) : Z :=
  fold_left (fun acc c => 10 * acc + Z.of_N (c - 48))%Z s 0%Z.

Fixpoint span_digits (s : text) : text * text :=
  match s with
  | c :: s' =>
      if is_digit c
      then let '(ds, rest) := span_digits s' in (c :: ds, rest)
      else ([], s)
  | [] => ([], [])
  end.

Definition float (s : text) : result Q :=
  let '(ip, rest) := span_digits s in
  match rest with
  | [] =>
      if bool_decide (ip = []) then Raise (ValueError s)
      else Ok (Float64.round64 (inject_Z (digits_value ip)))
  | c :: fp =>
      if (c =? 46)%N && forallb is_digit fp
         && negb (bool_decide (ip = []) && bool_decide (fp = []))
      then Ok (Float64.round64
                 (inject_Z (digits_value (ip ++ fp))
                  / inject_Z (10 ^ Z.of_nat (length fp))))
      else Raise (ValueError s)
  end.

(** First loop of the parsed branch: the action of largest positive
    overlap with [[start_time, end_time]], first seen on ties. *)
Definition best_overlap_action (detected_actions : list DetectedAction.t)
    (start_time end_time : Q) : option DetectedAction.t :=
  snd (fold_left
         (fun '(best_overlap, best_match) action =>
            let overlap_start :=
              py_max (DetectedAction.timestamp_start action) start_time in
            let overlap_end :=
              py_min (DetectedAction.timestamp_end action) end_time in
            let overlap := py_max 0 (fsub overlap_end overlap_start) in
            if Qltb best_overlap overlap then (overlap, Some action)
            else (best_overlap, best_match))
         detected_actions (0, None)).

(** Second loop: the first action containing [start_time] ends the
    loop; otherwise the nearest action under 30 seconds is kept.
    [min_distance = None] stands for [float('inf')]. *)
Fixpoint nearest_action (detected_actions : list DetectedAction.t)
    (start_time end_time : Q) (min_distance : option Q)
    (best_match : option DetectedAction.t) : option DetectedAction.t :=
  match detected_actions with
  | [] => best_match
  | action :: rest =>
      if Qleb (DetectedAction.timestamp_start action) start_time
         && Qleb start_time (DetectedAction.timestamp_end action)
      then Some action
      else
        let distance :=
          py_min
            (py_abs (fsub (DetectedAction.timestamp_start action) start_time))
            (py_abs (fsub (DetectedAction.timestamp_end action) end_time)) in
        if match min_distance with
           | None => true
           | Some d => Qltb distance d
           end && Qltb distance 30
        then nearest_action rest start_time end_time (Some distance)
               (Some action)
        else nearest_action rest start_time end_time min_distance best_match
  end.

Definition resolve_time_range (detected_actions : list DetectedAction.t)
    (start_time end_time : Q) : option DetectedAction.t :=
  let best_match := best_overlap_action detected_actions start_time end_time in
  if negb (bool_decide (is_Some best_match)) || Qeqb start_time end_time
  then nearest_action detected_actions start_time end_time None best_match
  else best_match.

(** The [else] branch of the loop body: similarity fallback. *)
Definition best_scoring_action (detected_actions : list DetectedAction.t)
    (step : InstructionStep.t) : Q * option DetectedAction.t :=
  fold_left
    (fun '(best_score, best_match) action =>
       let score :=
         _calculate_match_score (InstructionStep.description step)
           (DetectedAction.description action) in
       if Qltb best_score score then (score, Some action)
       else (best_score, best_match))
    detected_actions (0, None).

Definition not_detected : text := utf8 "Действие не обнаружено".

(** The block under [if matched and time_range:]: the action bound to
    a positive verdict, if any.  [float] may raise. *)
Definition bind_time_range (time_range : option text)
    (detected_actions : list DetectedAction.t)
    : result (option DetectedAction.t) :=
  match time_range with
  | Some (c :: cs) =>
      match Re.search false time_pattern (c :: cs) with
      | Some time_match =>
          start_time ← float (default [] (time_match !! 1%nat));
          end_time ←
            match time_match !! 2%nat with
            | Some (e :: es) => float (e :: es)
            | _ => Ok start_time
            end;
          Ok (resolve_time_range detected_actions start_time end_time)
      | None => Ok None
      end
  | _ => Ok None
  end.

(** The body of the loop [for step in instruction.steps] of
    [match_with_instruction]. *)
Definition match_step (llm_response : text)
    (detected_actions : list DetectedAction.t) (step : InstructionStep.t)
    : result ActionMatch.t :=
  let pattern := step_pattern (InstructionStep.step_number step) in
  match Re.search true pattern llm_response with
  | Some regex_match =>
      let status := Re.upper (default [] (regex_match !! 1%nat)) in
      let matched :=
        bool_decide (status ∈ [utf8 "DA"; utf8 "YES"; utf8 "ДА"]) in
      let time_range := regex_match !! 2%nat in
      let comment :=
        match regex_match !! 3%nat with
        | Some (c :: cs) => Some (c :: cs)
        | _ => None
        end in
      best_match ←
        (if matched then bind_time_range time_range detected_actions
         else Ok None);
      let deviation :=
        match matched, comment with
        | false, Some c => Some (strip c)
        | _, _ => None
        end in
      Ok (ActionMatch.mk (InstructionStep.step_number step) matched
            (if matched then best_match else None) deviation)
  | None =>
      let '(best_score, best_match) :=
        best_scoring_action detected_actions step in
      let matched := Qltb (1 # 4) best_score in
      let deviation := if matched then None else Some not_detected in
      Ok (ActionMatch.mk (InstructionStep.step_number step) matched
            (if matched then best_match else None) deviation)
  end.

(** [match_with_instruction], given the reply of the model to the
    matching prompt. *)
Definition match_with_instruction (llm_response : text)
    (detected_actions : list DetectedAction.t) (instruction : Instruction.t)
    : result (list ActionMatch.t) :=
  mapM (match_step llm_response detected_actions)
       (Instruction.steps instruction).

End Agent.
End VideoAnalysisAgent.

Import VideoAnalysisAgent.

(** ** The batch driver ([src/analyzer.py], analyze_video) *)

(** [[match.step_number for match in action_matches if not match.matched]] *)
Definition missing_steps (action_matches : list ActionMatch.t) : list Z :=
  map ActionMatch.step_number
      (filter (fun m => ActionMatch.matched m = false) action_matches).

(** ** The live tracker ([src/live_analyzer.py], class LiveAnalyzer) *)

Module LiveAnalyzer.

(** Values of the status dictionaries that [analyze_frame] returns. *)
Inductive pyval :=
| PNone
| PBool (b : bool)
| PInt (n : Z)
| PStr (s : text)
| PList (l : list text).

Record t := mk {
  instruction : Instruction.t;
  analysis_interval : Q;
  current_step : nat;
  completed_steps : list Z;
  last_analysis_time : Q;
  current_action : option DetectedAction.t;
  warnings : list text;
  action_history : list DetectedAction.t }.

(** [__init__] *)
Definition init (instruction : Instruction.t) (analysis_interval : Q) : t :=
  mk instruction analysis_interval 0 [] 0 None [] [].

Definition steps_of (self : t) : list InstructionStep.t :=
  Instruction.steps (instruction self).

Definition should_analyze (self : t) (current_time : Q) : bool :=
  Qleb (analysis_interval self) (fsub current_time (last_analysis_time self)).

Section Tracker.
Context {table : CaseTable}.

(** The loop over [enumerate(self.instruction.steps)] that looks for a
    later step matching the observation; [i] is the index of the head
    of [steps]. *)
Fixpoint scan_later_steps (i : nat) (steps : list InstructionStep.t)
    (current_step : nat) (observed : text) : option InstructionStep.t :=
  match steps with
  | [] => None
  | step :: rest =>
      if bool_decide (i ≤ current_step)%nat
      then scan_later_steps (S i) rest current_step observed
      else if Qltb (3 # 10)
                (_calculate_match_score (InstructionStep.description step)
                   observed)
      then Some step
      else scan_later_steps (S i) rest current_step observed
  end.

(** The text of the out-of-order warning. *)
Definition out_of_order_warning (step expected_step : InstructionStep.t)
    : text :=
  utf8 "⚠ ВНИМАНИЕ: Выполняется шаг "
  ++ str_of_int (InstructionStep.step_number step)
  ++ utf8 " вместо шага "
  ++ str_of_int (InstructionStep.step_number expected_step)
  ++ utf8 "!".

(** The action [analyze_frame] builds from the description of a frame. *)
Definition observation (description : text) (timestamp : Q)
    : DetectedAction.t :=
  DetectedAction.mk description timestamp timestamp (8 # 10).

Definition progress (completed_steps : list Z) (steps : list InstructionStep.t)
    : pyval :=
  PStr (str_of_len (length completed_steps) ++ utf8 "/"
        ++ str_of_len (length steps)).

Definition _check_instruction_compliance (self : t)
    : t * gmap string pyval :=
  let steps := Instruction.steps (instruction self) in
  match current_action self with
  | None =>
      (self,
       {[ "status" := PStr (utf8 "waiting");
          "message" := PStr (utf8 "Ожидание действий...");
          "current_step" := PNone;
          "warnings" := PList [] ]})
  | Some action =>
      match steps !! current_step self with
      | None =>
          (* self.current_step >= len(self.instruction.steps) *)
          (self,
           {[ "status" := PStr (utf8 "completed");
              "message" := PStr (utf8 "✓ Все шаги инструкции выполнены!");
              "current_step" := PNone;
              "warnings" := PList (warnings self);
              "completed" := PBool true ]})
      | Some expected_step =>
          let match_score :=
            _calculate_match_score
              (InstructionStep.description expected_step)
              (DetectedAction.description action) in
          if Qltb (3 # 10) match_score then
            let completed_steps' :=
              completed_steps self
              ++ [InstructionStep.step_number expected_step] in
            let current_step' := S (current_step self) in
            let message :=
              utf8 "✓ Шаг "
              ++ str_of_int (InstructionStep.step_number expected_step)
              ++ utf8 " выполнен: "
              ++ InstructionStep.description expected_step in
            (mk (instruction self) (analysis_interval self) current_step'
                completed_steps' (last_analysis_time self)
                (current_action self) (warnings self) (action_history self),
             {[ "status" := PStr (utf8 "step_completed");
                "message" := PStr message;
                "current_step" :=
                  PInt (InstructionStep.step_number expected_step);
                "expected_next" :=
                  match steps !! current_step' with
                  | Some next => PInt (InstructionStep.step_number next)
                  | None => PNone
                  end;
                "warnings" := PList [];
                "progress" := progress completed_steps' steps ]})
          else
            match scan_later_steps 0 steps (current_step self)
                    (DetectedAction.description action) with
            | Some step =>
                let warning := out_of_order_warning step expected_step in
                (mk (instruction self) (analysis_interval self)
                    (current_step self) (completed_steps self)
                    (last_analysis_time self) (current_action self)
                    (warnings self ++ [warning]) (action_history self),
                 {[ "status" := PStr (utf8 "warning");
                    "message" := PStr warning;
                    "current_step" :=
                      PInt (InstructionStep.step_number expected_step);
                    "detected_step" :=
                      PInt (InstructionStep.step_number step);
                    "warnings" := PList [warning];
                    "progress" := progress (completed_steps self) steps ]})
            | None =>
                (self,
                 {[ "status" := PStr (utf8 "in_progress");
                    "message" :=
                      PStr (utf8 "Ожидается: Шаг "
                            ++ str_of_int
                                 (InstructionStep.step_number expected_step)
                            ++ utf8 " - "
                            ++ InstructionStep.description expected_step);
                    "current_step" :=
                      PInt (InstructionStep.step_number expected_step);
                    "warnings" := PList [];
                    "progress" := progress (completed_steps self) steps ]})
            end
      end
  end.

(** [analyze_frame]; [description] is what the agent answers for the
    frame, the only use the method makes of [frame_base64]. *)
Definition analyze_frame (self : t) (description : text) (timestamp : Q)
    : t * gmap string pyval :=
  let action := observation description timestamp in
  let self1 :=
    mk (instruction self) (analysis_interval self) (current_step self)
       (completed_steps self) (last_analysis_time self) (Some action)
       (warnings self) (action_history self ++ [action]) in
  let '(self2, result) := _check_instruction_compliance self1 in
  (mk (instruction self2) (analysis_interval self2) (current_step self2)
      (completed_steps self2) timestamp (current_action self2)
      (warnings self2) (action_history self2),
   result).

(** A session: the frames analysed one after the other, with the status
    dictionaries returned, in call order. *)
Fixpoint run (self : t) (frames : list (text * Q))
    : t * list (gmap string pyval) :=
  match frames with
  | [] => (self, [])
  | (description, timestamp) :: rest =>
      let '(self1, result) := analyze_frame self description timestamp in
      let '(self2, results) := run self1 rest in
      (self2, result :: results)
  end.

End Tracker.
End LiveAnalyzer.

Import LiveAnalyzer.

(** ** The merger as the specification words it

    One walk over the input with an open [current] interval: the next
    action is absorbed when the gap [action.timestamp_start -
    current.timestamp_end], a difference of two floats, is less than 10
    and the similarity score of the two descriptions exceeds 0.5;
    otherwise [current] is closed and the action opens the next
    interval.  The last open interval is emitted at the end. *)

Section MergerSpec.
Context {table : CaseTable}.

Definition absorbs (current action : DetectedAction.t) : bool :=
  let gap :=
    fsub (DetectedAction.timestamp_start action)
         (DetectedAction.timestamp_end current) in
  Qltb gap 10
  && Qltb (1 # 2)
       (_calculate_match_score (DetectedAction.description current)
          (DetectedAction.description action)).

Definition extend_to (current action : DetectedAction.t) : DetectedAction.t :=
  DetectedAction.mk (DetectedAction.description current)
    (DetectedAction.timestamp_start current)
    (DetectedAction.timestamp_end action)
    (DetectedAction.confidence current).

Fixpoint merge_walk (current : DetectedAction.t)
    (actions : list DetectedAction.t) : list DetectedAction.t :=
  match actions with
  | [] => [current]
  | action :: rest =>
      if absorbs current action
      then merge_walk (extend_to current action) rest
      else current :: merge_walk action rest
  end.

Definition merge_spec (actions : list DetectedAction.t)
    : list DetectedAction.t :=
  match actions with
  | [] => []
  | first :: rest => merge_walk first rest
  end.

End MergerSpec.

(** Input ordered by [timestamp_start]. *)
Definition ordered_by_start (actions : list DetectedAction.t) : Prop :=
  StronglySorted Qle (map DetectedAction.timestamp_start actions).

(** The interval an action covers, and its description. *)
Definition interval (a : DetectedAction.t) : Q * Q * text :=
  (DetectedAction.timestamp_start a, DetectedAction.timestamp_end a,
   DetectedAction.description a).

(** Where and under which description an interval starts. *)
Definition opening (a : DetectedAction.t) : text * Q :=
  (DetectedAction.description a, DetectedAction.timestamp_start a).

(** ** Outcomes of the batch matcher, as the properties state them *)

Section MatcherSpec.
Context {table : CaseTable}.

Definition step_score (step : InstructionStep.t) (a : DetectedAction.t) : Q :=
  _calculate_match_score (InstructionStep.description step)
    (DetectedAction.description a).

(** What the fallback loop holds after a pass over [actions]: the
    largest score met, and the first action that reaches it. *)
Definition best_so_far (step : InstructionStep.t)
    (actions : list DetectedAction.t)
    (best : Q * option DetectedAction.t) : Prop :=
  0 <= best.1
  /\ Forall (fun a => step_score step a <= best.1) actions
  /\ match best.2 with
     | None => best.1 = 0
     | Some a =>
         0 < best.1
         /\ exists i : nat,
              actions !! i = Some a /\ step_score step a = best.1
              /\ forall (j : nat) b, (j < i)%nat -> actions !! j = Some b ->
                   step_score step b < best.1
     end.

(** The match of a step resolved by the similarity fallback:
    [best_score] is the largest score of a detected action (0 when no
    action scores above 0), the step is matched when it exceeds 0.25,
    a matched step is bound to the first action that reaches it, and an
    unmatched step is bound to no action and carries the deviation text. *)
Definition fallback_outcome (step : InstructionStep.t)
    (detected_actions : list DetectedAction.t) (m : ActionMatch.t) : Prop :=
  exists best_score : Q,
    Forall (fun a => step_score step a <= best_score) detected_actions
    /\ (best_score = 0
        \/ exists a, a ∈ detected_actions /\ step_score step a = best_score)
    /\ ActionMatch.step_number m = InstructionStep.step_number step
    /\ (ActionMatch.matched m = true <-> 1 # 4 < best_score)
    /\ if ActionMatch.matched m
       then
         ActionMatch.deviation m = None
         /\ exists (i : nat) a,
              ActionMatch.detected_action m = Some a
              /\ detected_actions !! i = Some a
              /\ step_score step a = best_score
              /\ forall (j : nat) b, (j < i)%nat ->
                   detected_actions !! j = Some b ->
                   step_score step b < best_score
       else
         ActionMatch.detected_action m = None
         /\ ActionMatch.deviation m = Some not_detected.

(** The reply line of [step] does not parse. *)
Definition unparsed (llm_response : text) (step : InstructionStep.t) : Prop :=
  Re.search true (step_pattern (InstructionStep.step_number step))
    llm_response = None.

(** The relation between a step and the match produced for it. *)
Definition bound_only_if_matched (llm_response : text)
    (step : InstructionStep.t) (m : ActionMatch.t) : Prop :=
  ActionMatch.step_number m = InstructionStep.step_number step
  /\ (ActionMatch.matched m = false -> ActionMatch.detected_action m = None)
  /\ (unparsed llm_response step ->
      (ActionMatch.matched m = false <->
       ActionMatch.detected_action m = None)).

End MatcherSpec.

(** ** Worked inputs of the specification *)

(** A detected action as the agent creates it ([confidence=0.8]). *)
Definition action (timestamp_start timestamp_end : Z) (description : string)
    : DetectedAction.t :=
  DetectedAction.mk (utf8 description) (inject_Z timestamp_start)
    (inject_Z timestamp_end) (8 # 10).

(** A step with the defaults of the model
    ([expected_duration_seconds=None], [critical=False]). *)
Definition step (step_number : Z) (description : string) : InstructionStep.t :=
  InstructionStep.mk step_number (utf8 description) None false.

Definition mixing_actions : list DetectedAction.t :=
  [action 0 5 "mixing"; action 6 10 "mixing water"; action 40 45 "mixing"].

Definition mold_steps : list InstructionStep.t :=
  [step 1 "prepare mold"; step 2 "pour mixture"].

Definition mold_actions : list DetectedAction.t :=
  [action 0 15 "cleaning and preparing the mold";
   action 20 40 "pouring mixture into mold"].

Definition mold_instruction : Instruction.t :=
  Instruction.mk (utf8 "Casting") mold_steps.

(** A reply in the requested format, both lines well formed. *)
Definition mold_reply : text :=
  utf8 "Шаг 1: DA - [0.0с-15.5с] - Выполнено подготовка формы
Шаг 2: NET - - Действие не обнаружено".

(** A reply in the requested format that places step 1 at a time where
    no action was detected. *)
Definition late_reply : text :=
  utf8 "Шаг 1: DA - [200.0с-215.5с] - Выполнено подготовка формы".

(** A reply that does not follow the format. *)
Definition free_reply : text :=
  utf8 "Оба шага выполнены: форма подготовлена, смесь залита.".

Definition unmatched (step_number : Z) : ActionMatch.t :=
  ActionMatch.mk step_number false None (Some not_detected).

(** ** Outcomes of the live tracker, as the properties state them *)

Definition has_status (status : string) (result : gmap string pyval) : Prop :=
  result !! "status" = Some (PStr (utf8 status)).

(** The out-of-order event: the warning names the expected and the
    detected step, it is added to the log, and neither the cursor nor
    the completed steps change. *)
Definition warned (self self' : LiveAnalyzer.t) (result : gmap string pyval)
    (expected_step detected : InstructionStep.t) : Prop :=
  let warning := out_of_order_warning detected expected_step in
  has_status "warning" result
  /\ result !! "message" = Some (PStr warning)
  /\ result !! "current_step"
     = Some (PInt (InstructionStep.step_number expected_step))
  /\ result !! "detected_step"
     = Some (PInt (InstructionStep.step_number detected))
  /\ result !! "warnings" = Some (PList [warning])
  /\ warnings self' = warnings self ++ [warning]
  /\ current_step self' = current_step self
  /\ completed_steps self' = completed_steps self.

(** A one-step instruction and a session that completes it. *)
Definition pour_instruction : Instruction.t :=
  Instruction.mk (utf8 "Casting") [step 1 "pour mixture"].

Definition pour_done : LiveAnalyzer.t :=
  (run (init pour_instruction 5) [(utf8 "pour the mixture", 1)]).1.

(** ** What a successful run of the matcher has consumed

    [consumes ic r s g s' g'] holds when pattern [r] can match a prefix
    of [s], leaving [s'], and turn the groups [g] into [g'].  Every
    successful run of [Re.exec] is such a match ([exec_consumes]). *)

Inductive consumes (ic : bool)
  : Re.regex -> text -> Re.groups -> text -> Re.groups -> Prop :=
| consumes_eps s g : consumes ic Re.Eps s g s g
| consumes_lit c x s g :
    Re.lit_matches ic c x = true -> consumes ic (Re.Lit c) (x :: s) g s g
| consumes_one_of p x s g :
    p x = true -> consumes ic (Re.OneOf p) (x :: s) g s g
| consumes_cat r1 r2 s g s1 g1 s2 g2 :
    consumes ic r1 s g s1 g1 -> consumes ic r2 s1 g1 s2 g2 ->
    consumes ic (Re.Cat r1 r2) s g s2 g2
| consumes_alt_l r1 r2 s g s' g' :
    consumes ic r1 s g s' g' -> consumes ic (Re.Alt r1 r2) s g s' g'
| consumes_alt_r r1 r2 s g s' g' :
    consumes ic r2 s g s' g' -> consumes ic (Re.Alt r1 r2) s g s' g'
| consumes_opt r s g s' g' :
    consumes ic r s g s' g' -> consumes ic (Re.Opt r) s g s' g'
| consumes_opt_skip r s g : consumes ic (Re.Opt r) s g s g
| consumes_star_stop r s g : consumes ic (Re.Star r) s g s g
| consumes_star_more r s g s1 g1 s2 g2 :
    consumes ic r s g s1 g1 -> consumes ic (Re.Star r) s1 g1 s2 g2 ->
    consumes ic (Re.Star r) s g s2 g2
| consumes_group n r s g s' g' :
    consumes ic r s g s' g' ->
    consumes ic (Re.Group n r) s g s'
      (<[n := take (length s - length s') s]> g').

(** Patterns without capturing groups. *)
Fixpoint group_free (r : Re.regex) : bool :=
  match r with
  | Re.Eps | Re.Lit _ | Re.OneOf _ => true
  | Re.Cat r1 r2 | Re.Alt r1 r2 => group_free r1 && group_free r2
  | Re.Star r1 | Re.Opt r1 => group_free r1
  | Re.Group _ _ => false
  end.

(** The verdict tokens of the reply format, and the positive ones. *)
Definition verdict_tokens : list text :=
  [utf8 "DA"; utf8 "NET"; utf8 "YES"; utf8 "NO"; utf8 "ДА"; utf8 "НЕТ"].

Definition positive_tokens : list text :=
  [utf8 "DA"; utf8 "YES"; utf8 "ДА"].

(** The letters of the verdict tokens. *)
Definition verdict_letters : list char :=
  [0x44; 0x41; 0x4e; 0x45; 0x54; 0x59; 0x53; 0x4f;
   0x414; 0x410; 0x41d; 0x415; 0x422]%N.

(** An action contains an instant. *)
Definition contains_instant (t : Q) (a : DetectedAction.t) : Prop :=
  DetectedAction.timestamp_start a <= t /\ t <= DetectedAction.timestamp_end a.

(** The distance from an action to an instant: from its start or from
    its end, whichever is nearer, each difference taken in floats. *)
Definition distance (t : Q) (a : DetectedAction.t) : Q :=
  Qmin (Qabs (fsub (DetectedAction.timestamp_start a) t))
       (Qabs (fsub (DetectedAction.timestamp_end a) t)).

(** The action bound to an instant [t]: the first action of the list
    that contains [t]; when none contains it, the action nearest to
    [t], the first of the list among equally near ones, provided it is
    less than 30 seconds away; no action when none contains [t] and all
    are 30 seconds or more away. *)
Definition bound_at (t : Q) (detected_actions : list DetectedAction.t)
    (bound : option DetectedAction.t) : Prop :=
  match bound with
  | Some a =>
      exists before after,
        detected_actions = before ++ a :: after
        /\ Forall (fun b => ~ contains_instant t b) before
        /\ (contains_instant t a
            \/ (Forall (fun b => ~ contains_instant t b) after
                /\ distance t a < 30
                /\ Forall (fun b => distance t a < distance t b) before
                /\ Forall (fun b => distance t a <= distance t b) after))
  | None =>
      Forall (fun b => ~ contains_instant t b /\ 30 <= distance t b)
        detected_actions
  end.

(** The comment of a parsed line as the deviation of an unmatched step. *)
Definition comment_deviation (g : Re.groups) : option text :=
  match g !! 3%nat with
  | Some (c :: cs) => Some (strip (c :: cs))
  | _ => None
  end.

(** How a parsed line with a positive verdict binds an action: only
    the first number of the time range is read, as an instant [t], and
    the action bound is the one bound to [t]; no action is bound when
    the line has no time range or the range holds no number. *)
Definition binds_at_instant (g : Re.groups)
    (detected_actions : list DetectedAction.t) (m : ActionMatch.t) : Prop :=
  match g !! 2%nat with
  | None => ActionMatch.detected_action m = None
  | Some time_range =>
      match Re.search false time_pattern time_range with
      | None => ActionMatch.detected_action m = None
      | Some tm =>
          tm !! 2%nat = None
          /\ exists number t,
               tm !! 1%nat = Some number /\ float number = Ok t
               /\ bound_at t detected_actions (ActionMatch.detected_action m)
      end
  end.

(** The line of a step whose time range holds a malformed number. *)
Definition malformed_number (llm_response : text) (st : InstructionStep.t)
    (e : exn) : Prop :=
  exists g time_range tm number,
    Re.search true (step_pattern (InstructionStep.step_number st))
      llm_response = Some g
    /\ Re.upper (default [] (g !! 1%nat)) ∈ positive_tokens
    /\ g !! 2%nat = Some time_range
    /\ Re.search false time_pattern time_range = Some tm
    /\ tm !! 1%nat = Some number
    /\ float number = Raise e
    /\ e = ValueError number.

Section MatcherExtras.
Context {table : CaseTable}.

(** Some detected action scores above 0.25 against the step. *)
Definition reaches_threshold (detected_actions : list DetectedAction.t)
    (st : InstructionStep.t) : bool :=
  existsb (fun a => Qltb (1 # 4) (step_score st a)) detected_actions.

End MatcherExtras.

(** ** Intervals of the merger *)

(** An interval does not end before it starts. *)
Definition well_formed (a : DetectedAction.t) : Prop :=
  DetectedAction.timestamp_start a <= DetectedAction.timestamp_end a.

Section MergerExtras.
Context {table : CaseTable}.

(** No interval of the list would absorb the one that follows it. *)
Fixpoint settled (actions : list DetectedAction.t) : Prop :=
  match actions with
  | a :: rest =>
      match rest with
      | b :: _ => absorbs a b = false /\ settled rest
      | [] => True
      end
  | [] => True
  end.

End MergerExtras.

(** ** Batches of frames ([analyze_video_sequence] of the agent) *)

(** A frame as [VideoProcessor.extract_frames] builds it. *)
Module Frame.
Record t := mk {
  timestamp : Q;
  frame_data : text;
  frame_number : Z }.
End Frame.

(** [range(0, n, 3)] *)
Fixpoint range3_from (fuel i n : nat) : list nat :=
  match fuel with
  | O => []
  | S fuel' =>
      if bool_decide (i < n)%nat then i :: range3_from fuel' (i + 3) n
      else []
  end.

Definition range3 (n : nat) : list nat := range3_from n 0 n.

(** [(len(frames) + 2) // 3], the number of batches the progress log
    announces. *)
Definition total_batches (frames : list Frame.t) : nat :=
  (length frames + 2) / 3.

(** The action built from one batch and the description the model gave
    for it: it runs from [batch[0]] to [batch[-1]]. *)
Definition batch_action (description : text) (batch : list Frame.t)
    : option DetectedAction.t :=
  match head batch, last batch with
  | Some first, Some final =>
      Some (DetectedAction.mk description (Frame.timestamp first)
              (Frame.timestamp final) (8 # 10))
  | _, _ => None
  end.

Section VideoSequence.
Context {table : CaseTable}.

(** The loop of [analyze_video_sequence] over [range(0, len(frames), 3)]
    with [batch = frames[i:i+3]]; [replies k] is the description the
    model returns for the request number [k].  A batch is never empty,
    so every turn appends an action ([detect_actions_length]). *)
Definition detect_actions (replies : nat -> text) (frames : list Frame.t)
    : list DetectedAction.t :=
  omap id
    (imap (fun k i => batch_action (replies k) (take 3 (drop i frames)))
       (range3 (length frames))).

Definition analyze_video_sequence (replies : nat -> text)
    (frames : list Frame.t) : list DetectedAction.t :=
  _merge_similar_actions (detect_actions replies frames).

End VideoSequence.

(** The same batches by recursion on the frames, three at a time, from
    request number [k] on. *)
Fixpoint batch_actions (replies : nat -> text) (k : nat)
    (frames : list Frame.t) : list DetectedAction.t :=
  match frames with
  | [] => []
  | a :: rest1 =>
      match rest1 with
      | [] => [DetectedAction.mk (replies k) (Frame.timestamp a)
                 (Frame.timestamp a) (8 # 10)]
      | b :: rest2 =>
          match rest2 with
          | [] => [DetectedAction.mk (replies k) (Frame.timestamp a)
                     (Frame.timestamp b) (8 # 10)]
          | c :: rest =>
              DetectedAction.mk (replies k) (Frame.timestamp a)
                (Frame.timestamp c) (8 # 10)
              :: batch_actions replies (S k) rest
          end
      end
  end.

(** Frames in the order of their time stamps. *)
Definition frames_ordered (frames : list Frame.t) : Prop :=
  StronglySorted Qle (map Frame.timestamp frames).

(** ** More outcomes of the live tracker *)

(** The completed steps are the first [current_step] steps of the
    checklist, in checklist order. *)
Definition in_checklist_order (self : LiveAnalyzer.t) : Prop :=
  completed_steps self
  = map InstructionStep.step_number
      (take (current_step self) (steps_of self)).

Section TrackerExtras.
Context {table : CaseTable}.

(** The observation is taken for the step. *)
Definition observed_as (observed : text) (st : InstructionStep.t) : Prop :=
  3 # 10 < _calculate_match_score (InstructionStep.description st) observed.

(** Some step after the expected one is taken for the observation. *)
Definition later_step_observed (self : LiveAnalyzer.t) (observed : text)
    : Prop :=
  exists (j : nat) st,
    (current_step self < j)%nat /\ steps_of self !! j = Some st
    /\ observed_as observed st.

(** What decides the status of a call: the state before it and the
    description observed. *)
Definition status_decided (self : LiveAnalyzer.t) (observed : text)
    (result : gmap string pyval) : Prop :=
  (has_status "completed" result <->
     (length (steps_of self) <= current_step self)%nat)
  /\ (has_status "step_completed" result <->
      exists expected,
        steps_of self !! current_step self = Some expected
        /\ observed_as observed expected)
  /\ (has_status "warning" result <->
      exists expected,
        steps_of self !! current_step self = Some expected
        /\ ~ observed_as observed expected
        /\ later_step_observed self observed)
  /\ (has_status "in_progress" result <->
      exists expected,
        steps_of self !! current_step self = Some expected
        /\ ~ observed_as observed expected
        /\ ~ later_step_observed self observed)
  /\ ~ has_status "waiting" result.

End TrackerExtras.

#[export] Instance pyval_eq_dec : EqDecision pyval.
Proof. solve_decision. Defined.

#[export] Instance has_status_dec (status : string)
    (result : gmap string pyval) : Decision (has_status status result).
Proof. unfold has_status. apply _. Defined.

(** The calls of a session that returned a given status. *)
Definition count_status (status : string)
    (results : list (gmap string pyval)) : nat :=
  length (filter (has_status status) results).

(** ** The squat counter ([src/squats_counter.py]) *)

Module SquatsCounter.

Inductive SquatState := STANDING | SQUATTING | UNKNOWN.

(** The values of the enumeration. *)
Definition value (state : SquatState) : text :=
  match state with
  | STANDING => utf8 "стоит"
  | SQUATTING => utf8 "приседает"
  | UNKNOWN => utf8 "неизвестно"
  end.

#[export] Instance SquatState_eq_dec : EqDecision SquatState.
Proof. solve_decision. Defined.

Inductive val :=
| VInt (n : Z)
| VStr (s : text)
| VFloat (x : Q).

Record t := mk {
  analysis_interval : Q;
  squat_count : nat;
  current_state : SquatState;
  last_analysis_time : Q }.

(** [__init__] *)
Definition init (analysis_interval : Q) : t :=
  mk analysis_interval 0 UNKNOWN 0.

Definition should_analyze (self : t) (current_time : Q) : bool :=
  Qleb (analysis_interval self) (fsub current_time (last_analysis_time self)).

(** [str.upper], a table of the interpreter like [str.lower]. *)
Class UpperTable := { upper : text -> text }.

(** [needle in hay] on [str]. *)
Fixpoint starts_with (needle hay : text) : bool :=
  match needle, hay with
  | [], _ => true
  | c :: needle', x :: hay' => (c =? x)%N && starts_with needle' hay'
  | _ :: _, [] => false
  end.

Fixpoint contains (needle hay : text) : bool :=
  starts_with needle hay
  || match hay with
     | [] => false
     | _ :: hay' => contains needle hay'
     end.

Section Counter.
Context {table : UpperTable}.

(** [_detect_squat_state], given the content of the model's reply. *)
Definition _detect_squat_state (content : text) : SquatState :=
  let answer := upper (strip content) in
  if contains (utf8 "СТОИТ") answer || contains (utf8 "STANDING") answer
  then STANDING
  else if contains (utf8 "ПРИСЕДАЕТ") answer
          || contains (utf8 "ПРИСЕД") answer
          || contains (utf8 "SQUAT") answer
  then SQUATTING
  else UNKNOWN.

(** [analyze_frame]; [content] is the reply of the model for the frame. *)
Definition analyze_frame (self : t) (content : text) (timestamp : Q)
    : t * gmap string val :=
  let state := _detect_squat_state content in
  let squat_count' :=
    if bool_decide (current_state self = SQUATTING)
       && bool_decide (state = STANDING)
    then S (squat_count self)
    else squat_count self in
  (mk (analysis_interval self) squat_count' state timestamp,
   {[ "count" := VInt (Z.of_nat squat_count');
      "state" := VStr (value state);
      "timestamp" := VFloat timestamp ]}).

Fixpoint run (self : t) (frames : list (text * Q)) : t :=
  match frames with
  | [] => self
  | (content, timestamp) :: rest =>
      run (analyze_frame self content timestamp).1 rest
  end.

End Counter.

(** The stand-ups of a sequence of states: the places where SQUATTING
    is directly followed by STANDING. *)
Fixpoint stand_ups (states : list SquatState) : nat :=
  match states with
  | s :: rest =>
      match rest with
      | s' :: _ =>
          (if bool_decide (s = SQUATTING) && bool_decide (s' = STANDING)
           then 1 else 0) + stand_ups rest
      | [] => 0
      end
  | [] => 0
  end%nat.

End SquatsCounter.

(** ** More worked inputs *)

(** The description of a frame batch in a session where the model
    always sees the same activity. *)
Definition always_mixing (k : nat) : text := utf8 "mixing".

(** Five frames, two seconds apart. *)
Definition five_frames : list Frame.t :=
  [Frame.mk (inject_Z 0) (utf8 "f0") 0; Frame.mk (inject_Z 2) (utf8 "f1") 60;
   Frame.mk (inject_Z 4) (utf8 "f2") 120; Frame.mk (inject_Z 6) (utf8 "f3") 180;
   Frame.mk (inject_Z 8) (utf8 "f4") 240].

(** A reply whose time range is not a number. *)
Definition dotted_reply : text := utf8 "Шаг 1: DA - [1.2.3] - ok".

(** Two actions within 30 seconds of the instant 82, neither
    containing it, and a reply that places step 1 there. *)
Definition apart_actions : list DetectedAction.t :=
  [action 60 65 "preparing the mold"; action 100 105 "pouring mixture"].

Definition apart_reply : text := utf8 "Шаг 1: DA - [82.0с-90.0с] - ok".

(** ** Exact and rounded differences *)

(** Every action starts 10 seconds or more after the one before it
    ends, the difference taken exactly. *)
Fixpoint far_apart (actions : list DetectedAction.t) : Prop :=
  match actions with
  | a :: rest =>
      match rest with
      | b :: _ =>
          10 <= DetectedAction.timestamp_start b
                - DetectedAction.timestamp_end a
          /\ far_apart rest
      | [] => True
      end
  | [] => True
  end.

(** The double that a decimal literal denotes. *)
Definition literal (x : Q) : Q := Float64.round64 x.

(** Two actions with the same description, the first ending at the
    double [0.1] and the second starting at the double [10.1]. *)
Definition tenth_actions : list DetectedAction.t :=
  [DetectedAction.mk (utf8 "mixing") 0 (literal (1 # 10)) (8 # 10);
   DetectedAction.mk (utf8 "mixing") (literal (101 # 10)) 20 (8 # 10)].

(** Three actions with the same description, 10 seconds apart. *)
Definition spaced_actions : list DetectedAction.t :=
  [action 0 5 "mixing"; action 15 20 "mixing"; action 30 31 "mixing"].

(** * Properties *)

Arguments utf8 : simpl never.
Arguments str_of_int : simpl never.
Arguments str_of_len : simpl never.
Arguments Re.search : simpl never.
Arguments step_pattern : simpl never.
Arguments _calculate_match_score : simpl never.

(** ** Comparisons *)

Lemma Qltb_lt (x y : Q) : Qltb x y = true <-> x < y.
Proof.
  unfold Qltb. rewrite Qlt_alt. destruct (x ?= y); intuition congruence.
Qed.

Lemma Qltb_ge (x y : Q) : Qltb x y = false <-> y <= x.
Proof.
  unfold Qltb. rewrite Qle_alt, <- Qgt_alt, Qlt_alt.
  destruct (x ?= y) eqn:E; intuition congruence.
Qed.

Lemma Qleb_le (x y : Q) : Qleb x y = true <-> x <= y.
Proof.
  unfold Qleb. rewrite Qle_alt. destruct (x ?= y); intuition congruence.
Qed.

(** ** Double precision

    Rounding keeps the sign and the order of the rationals, and leaves
    the multiples of the last place where they are. *)

Lemma round_half_even_bounds (x : Q) :
  (Qfloor x <= Float64.round_half_even x <= Qfloor x + 1)%Z.
Proof.
  unfold Float64.round_half_even. cbv zeta.
  destruct (_ ?= _); [destruct (Z.even _)| |]; lia.
Qed.

Lemma round_half_even_mono (x y : Q) :
  x <= y -> (Float64.round_half_even x <= Float64.round_half_even y)%Z.
Proof.
  intros Hxy. pose proof (Qfloor_resp_le x y Hxy) as Hf.
  destruct (Z.eq_dec (Qfloor x) (Qfloor y)) as [He|Hne].
  - unfold Float64.round_half_even. cbv zeta. rewrite <- He.
    destruct (Qcompare_spec (x - inject_Z (Qfloor x)) (1 # 2)) as [H1|H1|H1];
      destruct (Qcompare_spec (y - inject_Z (Qfloor x)) (1 # 2)) as [H2|H2|H2];
      try destruct (Z.even _); try lia; lra.
  - pose proof (round_half_even_bounds x).
    pose proof (round_half_even_bounds y).
    lia.
Qed.

Lemma round_half_even_Z (z : Z) : Float64.round_half_even (inject_Z z) = z.
Proof.
  unfold Float64.round_half_even. cbv zeta. rewrite Qfloor_Z.
  destruct (Qcompare_spec (inject_Z z - inject_Z z) (1 # 2)) as [H|H|H];
    [lra | done | lra].
Qed.

Lemma round_half_even_comp (x y : Q) :
  x == y -> Float64.round_half_even x = Float64.round_half_even y.
Proof.
  intros H. apply Z.le_antisymm; apply round_half_even_mono; lra.
Qed.

Lemma pow2_pos (e : Z) : 0 < 2 ^ e.
Proof. by apply Qpower_0_lt. Qed.

Lemma pow2_plus (a b : Z) : 2 ^ (a + b) == 2 ^ a * 2 ^ b.
Proof. by apply Qpower_plus. Qed.

Lemma pow2_le (a b : Z) : (a <= b)%Z -> 2 ^ a <= 2 ^ b.
Proof. intros H. apply Qpower_le_compat_l; [done | lra]. Qed.

Lemma round_to_mono (e : Z) (x y : Q) :
  x <= y -> Float64.round_to e x <= Float64.round_to e y.
Proof.
  intros Hxy. unfold Float64.round_to. pose proof (pow2_pos e) as He.
  apply Qmult_le_compat_r; [|lra].
  rewrite <- Zle_Qle. apply round_half_even_mono.
  unfold Qdiv. apply Qmult_le_compat_r; [done|].
  apply Qlt_le_weak, Qinv_lt_0_compat, He.
Qed.

Lemma round_to_multiple (e : Z) (m : Z) :
  Float64.round_to e (inject_Z m * 2 ^ e) == inject_Z m * 2 ^ e.
Proof.
  unfold Float64.round_to. pose proof (pow2_pos e) as He.
  rewrite (round_half_even_comp _ (inject_Z m)), round_half_even_Z; [done|].
  field. lra.
Qed.

Lemma round_to_comp (e : Z) (x y : Q) :
  x == y -> Float64.round_to e x == Float64.round_to e y.
Proof.
  intros H. apply Qle_antisym; apply round_to_mono; lra.
Qed.

Lemma round_to_pow2 (e k : Z) :
  (e <= k)%Z -> Float64.round_to e (2 ^ k) == 2 ^ k.
Proof.
  intros H.
  assert (Heq : 2 ^ k == inject_Z (2 ^ (k - e)) * 2 ^ e).
  { rewrite Zpower_Qpower by lia. change (inject_Z 2) with 2.
    rewrite <- pow2_plus. by replace (k - e + e)%Z with k by lia. }
  rewrite (round_to_comp e _ _ Heq), round_to_multiple. by symmetry.
Qed.

Lemma round_to_nonneg (e : Z) (x : Q) : 0 <= x -> 0 <= Float64.round_to e x.
Proof.
  intros H. pose proof (round_to_mono e 0 x H) as Hm.
  pose proof (round_to_multiple e 0) as H0.
  assert (Hz : 0 == inject_Z 0 * 2 ^ e) by (change (inject_Z 0) with 0; lra).
  rewrite <- (round_to_comp e _ _ Hz) in H0.
  change (inject_Z 0) with 0 in H0. lra.
Qed.

Lemma ilog2_spec (x : Q) :
  0 < x -> 2 ^ Float64.ilog2 x <= x /\ x < 2 ^ (Float64.ilog2 x + 1).
Proof.
  intros Hx. destruct x as [n d]. unfold Float64.ilog2. cbn [Qnum Qden].
  assert (Hn : (0 < n)%Z).
  { unfold Qlt in Hx. cbn in Hx. lia. }
  pose proof (Z.log2_spec n Hn) as [Ha1 Ha2].
  pose proof (Z.log2_spec (Z.pos d) (Pos2Z.is_pos d)) as [Hb1 Hb2].
  pose proof (Z.log2_nonneg n) as Ha0.
  pose proof (Z.log2_nonneg (Z.pos d)) as Hb0.
  set (a := Z.log2 n) in *. set (b := Z.log2 (Z.pos d)) in *.
  assert (Hnq : 2 ^ a <= inject_Z n /\ inject_Z n < 2 ^ (a + 1)).
  { rewrite <- !(Zpower_Qpower 2) by lia. rewrite <- Zle_Qle, <- Zlt_Qlt.
    rewrite <- Z.add_1_r in Ha2. done. }
  assert (Hdq : 2 ^ b <= inject_Z (Z.pos d)
                /\ inject_Z (Z.pos d) < 2 ^ (b + 1)).
  { rewrite <- !(Zpower_Qpower 2) by lia. rewrite <- Zle_Qle, <- Zlt_Qlt.
    rewrite <- Z.add_1_r in Hb2. done. }
  assert (Hxq : n # d == inject_Z n / inject_Z (Z.pos d)) by apply Qmake_Qdiv.
  assert (Hd0 : 0 < inject_Z (Z.pos d)).
  { rewrite <- (Zlt_Qlt 0). lia. }
  assert (Hlow : 2 ^ (a - b - 1) < n # d).
  { rewrite Hxq. apply Qlt_shift_div_l; [done|].
    apply Qlt_le_trans with (2 ^ (a - b - 1) * 2 ^ (b + 1)).
    - apply Qmult_lt_l; [apply pow2_pos | tauto].
    - rewrite <- pow2_plus.
      replace (a - b - 1 + (b + 1))%Z with a by lia. tauto. }
  assert (Hhigh : n # d < 2 ^ (a - b + 1)).
  { rewrite Hxq. apply Qlt_shift_div_r; [done|].
    apply Qlt_le_trans with (2 ^ (a + 1)); [tauto|].
    replace (a + 1)%Z with (a - b + 1 + b)%Z by lia. rewrite pow2_plus.
    apply Qmult_le_l; [apply pow2_pos | tauto]. }
  unfold Qleb. destruct (Qcompare_spec (2 ^ (a - b)) (n # d)) as [H|H|H].
  - split; [lra | done].
  - split; [lra | done].
  - replace (a - b - 1 + 1)%Z with (a - b)%Z by lia. split; lra.
Qed.

Lemma ilog2_mono (x y : Q) :
  0 < x -> x <= y -> (Float64.ilog2 x <= Float64.ilog2 y)%Z.
Proof.
  intros Hx Hxy.
  destruct (ilog2_spec x Hx) as [Hx1 _].
  destruct (ilog2_spec y ltac:(lra)) as [_ Hy2].
  destruct (Z_le_gt_dec (Float64.ilog2 x) (Float64.ilog2 y)) as [|Hgt]; [done|].
  pose proof (pow2_le (Float64.ilog2 y + 1) (Float64.ilog2 x) ltac:(lia)). lra.
Qed.

Lemma round_pos_mono (x y : Q) :
  0 < x -> x <= y -> Float64.round_pos x <= Float64.round_pos y.
Proof.
  intros Hx Hxy. unfold Float64.round_pos.
  pose proof (ilog2_mono x y Hx Hxy) as Hl.
  destruct (Z.eq_dec (Float64.ulp_exponent x) (Float64.ulp_exponent y))
    as [->|Hne].
  - by apply round_to_mono.
  - unfold Float64.ulp_exponent in *.
    destruct (ilog2_spec x Hx) as [_ Hx2].
    destruct (ilog2_spec y ltac:(lra)) as [Hy1 _].
    set (ex := Z.max (Float64.ilog2 x - 52) (-1074)) in *.
    set (ey := Z.max (Float64.ilog2 y - 52) (-1074)) in *.
    assert (Hey : ey = (Float64.ilog2 y - 52)%Z) by lia.
    assert (Hlt : (ex + 53 <= ey + 52)%Z) by lia.
    assert (Hxe : (Float64.ilog2 x + 1 <= ex + 53)%Z) by lia.
    apply Qle_trans with (Float64.round_to ex (2 ^ (ex + 53))).
    { apply round_to_mono. pose proof (pow2_le _ _ Hxe). lra. }
    rewrite round_to_pow2 by lia.
    apply Qle_trans with (2 ^ (ey + 52)); [by apply pow2_le|].
    rewrite <- (round_to_pow2 ey (ey + 52)) by lia.
    apply round_to_mono.
    replace (ey + 52)%Z with (Float64.ilog2 y) by lia. done.
Qed.

Lemma round_pos_nonneg (x : Q) : 0 <= x -> 0 <= Float64.round_pos x.
Proof. apply round_to_nonneg. Qed.

(** Rounding keeps the sign. *)
Lemma round64_nonneg (x : Q) : 0 <= x -> 0 <= Float64.round64 x.
Proof.
  intros H. unfold Float64.round64. rewrite Qred_correct.
  destruct (Qcompare_spec x 0); [lra | lra | by apply round_pos_nonneg].
Qed.

Lemma round64_nonpos (x : Q) : x <= 0 -> Float64.round64 x <= 0.
Proof.
  intros H. unfold Float64.round64. rewrite Qred_correct.
  destruct (Qcompare_spec x 0) as [H0|H0|H0]; [lra | | lra].
  pose proof (round_pos_nonneg (- x)). lra.
Qed.

(** Rounding is monotone. *)
Lemma round64_mono (x y : Q) :
  x <= y -> Float64.round64 x <= Float64.round64 y.
Proof.
  intros Hxy.
  destruct (Qlt_le_dec 0 x) as [Hx|Hx].
  - unfold Float64.round64. rewrite !Qred_correct.
    destruct (Qcompare_spec x 0); [lra | lra |].
    destruct (Qcompare_spec y 0); [lra | lra |].
    by apply round_pos_mono.
  - destruct (Qlt_le_dec y 0) as [Hy|Hy].
    + unfold Float64.round64. rewrite !Qred_correct.
      destruct (Qcompare_spec x 0); [lra | | lra].
      destruct (Qcompare_spec y 0); [lra | | lra].
      pose proof (round_pos_mono (- y) (- x)). lra.
    + pose proof (round64_nonpos x Hx). pose proof (round64_nonneg y Hy). lra.
Qed.

Lemma round64_comp (x y : Q) :
  x == y -> Float64.round64 x == Float64.round64 y.
Proof.
  intros H. apply Qle_antisym; apply round64_mono; lra.
Qed.

Lemma fsub_nonpos (x y : Q) : x <= y -> fsub x y <= 0.
Proof. intros H. apply round64_nonpos. lra. Qed.

(** A float difference below a double [c] is a true difference below [c]. *)
Lemma fsub_lt (x y c : Q) :
  Float64.round64 c == c -> fsub x y < c -> x - y < c.
Proof.
  intros Hc H. destruct (Qlt_le_dec (x - y) c) as [|Hle]; [done|].
  apply round64_mono in Hle. unfold fsub in H. lra.
Qed.

Lemma fsub_ge (x y c : Q) :
  Float64.round64 c == c -> c <= x - y -> c <= fsub x y.
Proof.
  intros Hc H. apply round64_mono in H. unfold fsub. lra.
Qed.

(** ** The similarity score *)

Section Score.
Context {table : CaseTable}.

Lemma score_sym (a b : text) :
  _calculate_match_score a b = _calculate_match_score b a.
Proof.
  unfold _calculate_match_score. cbn zeta.
  rewrite (comm_L (∩) (word_set a)), (comm_L (∪) (word_set a)).
  by rewrite orb_comm.
Qed.

Lemma word_set_empty (a : text) : word_set a = ∅ <-> split (lower a) = [].
Proof.
  unfold word_set. split.
  - intros H. destruct (split (lower a)) as [|w ws]; [done|].
    exfalso. assert (w ∈ (∅ : gset text)) by (rewrite <- H; set_solver).
    set_solver.
  - by intros ->.
Qed.

Lemma score_self (a : text) :
  split (lower a) <> [] -> _calculate_match_score a a == 1.
Proof.
  intros Hne. unfold _calculate_match_score. cbn zeta.
  assert (Hw : word_set a <> ∅) by (by rewrite word_set_empty).
  rewrite !bool_decide_eq_false_2 by done. cbn [orb].
  rewrite (idemp_L (∩)), (idemp_L (∪)).
  apply Qmult_inv_r.
  assert (size (word_set a) <> 0%nat)
    by (rewrite size_non_empty_iff; by intros ?%leibniz_equiv).
  unfold inject_Z, Qeq. cbn. lia.
Qed.

Lemma similar_is_score (desc1 desc2 : text) :
  _are_similar_descriptions desc1 desc2
  = Qltb (1 # 2) (_calculate_match_score desc1 desc2).
Proof.
  unfold _are_similar_descriptions, _calculate_match_score. cbn zeta.
  by destruct (bool_decide (word_set desc1 = ∅) || bool_decide (word_set desc2 = ∅)).
Qed.

End Score.

(** C9 (as stated, refuted): a text of one blank is not empty, yet it
    has no token and scores 0 against itself. *)
Lemma score_self_blank_text :
  utf8 " " <> []
  /\ _calculate_match_score (utf8 " ") (utf8 " ") == 0
  /\ ~ _calculate_match_score (utf8 " ") (utf8 " ") == 1.
Proof.
  split; [done|]. split; [done|]. vm_compute. discriminate.
Qed.

(** C9 (amended): the score is symmetric for all pairs of texts, and a
    text scores 1 against itself whenever it has at least one token,
    that is whenever [a.lower().split()] is not empty. *)
Theorem score_symmetric_self_one {table : CaseTable} (a b : text) :
  _calculate_match_score a b = _calculate_match_score b a
  /\ (split (lower a) <> [] -> _calculate_match_score a a == 1).
Proof.
  split; [apply score_sym | apply score_self].
Qed.

(** The amended C9 on the text "Mixing water". *)
Lemma score_symmetric_self_one_witness :
  _calculate_match_score (utf8 "Mixing water") (utf8 "water")
  = _calculate_match_score (utf8 "water") (utf8 "Mixing water")
  /\ split (lower (utf8 "Mixing water")) <> []
  /\ _calculate_match_score (utf8 "Mixing water") (utf8 "Mixing water") == 1.
Proof.
  pose proof (score_symmetric_self_one (utf8 "Mixing water") (utf8 "water"))
    as [Hsym Hself].
  split; [exact Hsym|].
  assert (Hne : split (lower (utf8 "Mixing water")) <> []) by (vm_compute; discriminate).
  split; [exact Hne | exact (Hself Hne)].
Defined.

(** ** The merger *)

Section Merger.
Context {table : CaseTable}.

Lemma absorbs_is_merge_test (current action : DetectedAction.t) :
  Qltb (fsub (DetectedAction.timestamp_start action)
          (DetectedAction.timestamp_end current)) 10
  && _are_similar_descriptions (DetectedAction.description current)
       (DetectedAction.description action)
  = absorbs current action.
Proof. unfold absorbs. by rewrite similar_is_score. Qed.

(** The list [merged] of the code is the closed intervals followed by
    the open one. *)
Lemma merge_step_snoc (closed : list DetectedAction.t)
    (current action : DetectedAction.t) :
  merge_step (closed ++ [current]) action
  = if absorbs current action
    then closed ++ [extend_to current action]
    else closed ++ [current; action].
Proof.
  unfold merge_step. rewrite last_snoc, absorbs_is_merge_test.
  destruct (absorbs current action).
  - rewrite length_app. cbn [length].
    replace (pred (length closed + 1)) with (length closed + 0)%nat by lia.
    rewrite insert_app_r. reflexivity.
  - by rewrite <- app_assoc.
Qed.

Lemma fold_merge_step (actions closed : list DetectedAction.t)
    (current : DetectedAction.t) :
  fold_left merge_step actions (closed ++ [current])
  = closed ++ merge_walk current actions.
Proof.
  revert closed current.
  induction actions as [|action rest IH]; intros closed current; [done|].
  cbn [fold_left merge_walk]. rewrite merge_step_snoc.
  destruct (absorbs current action).
  - apply IH.
  - replace (closed ++ [current; action])
      with ((closed ++ [current]) ++ [action]) by (by rewrite <- app_assoc).
    rewrite IH. by rewrite <- app_assoc.
Qed.

Lemma merge_refines_walk (actions : list DetectedAction.t) :
  _merge_similar_actions actions = merge_spec actions.
Proof.
  destruct actions as [|first rest]; [done|].
  apply (fold_merge_step rest [] first).
Qed.

Lemma walk_openings (actions : list DetectedAction.t)
    (current : DetectedAction.t) :
  map opening (merge_walk current actions)
    `sublist_of` map opening (current :: actions).
Proof.
  revert current.
  induction actions as [|action rest IH]; intros current; [done|].
  cbn [merge_walk]. destruct (absorbs current action).
  - specialize (IH (extend_to current action)). cbn [map] in *.
    change (opening (extend_to current action)) with (opening current) in IH.
    inversion IH; subst.
    + by apply sublist_skip, sublist_cons.
    + by do 2 apply sublist_cons.
  - cbn [map]. apply sublist_skip, IH.
Qed.

Lemma walk_last_end (actions : list DetectedAction.t)
    (current : DetectedAction.t) :
  last (map DetectedAction.timestamp_end (merge_walk current actions))
  = last (map DetectedAction.timestamp_end (current :: actions)).
Proof.
  revert current.
  induction actions as [|action rest IH]; intros current; [done|].
  cbn [merge_walk]. destruct (absorbs current action).
  - rewrite IH. by destruct rest.
  - cbn [map]. rewrite !last_cons, IH. cbn [map].
    rewrite last_cons. by destruct (last (map _ rest)).
Qed.

End Merger.

Lemma sublist_strongly_sorted {A} (R : relation A) (l1 l2 : list A) :
  l1 `sublist_of` l2 -> StronglySorted R l2 -> StronglySorted R l1.
Proof.
  intros Hsub. induction Hsub as [|x l1 l2 Hsub IH|x l1 l2 Hsub IH].
  - trivial.
  - rewrite !StronglySorted_cons. intros [Hall Hs]. split; [|by apply IH].
    rewrite Forall_forall in *. intros y Hy.
    apply Hall. by eapply elem_of_sublist.
  - rewrite StronglySorted_cons. intros [_ Hs]. by apply IH.
Qed.

(** C6: the merger of the code is the single walk with an open current
    interval that the specification describes ([merge_spec]): an action
    is absorbed exactly when [absorbs] holds, that is when the gap, the
    float difference [action.timestamp_start - current.timestamp_end],
    is below 10 and the score is above 0.5; the first description is
    kept, the last open interval is emitted, the empty input gives the
    empty output, and the intervals come out in input order: they open
    where input actions open, in the same order, so an input ordered by
    start time gives an output ordered by start time, and the last
    interval ends where the last input action ends. *)
Theorem merge_is_single_walk {table : CaseTable}
    (actions : list DetectedAction.t) (Hord : ordered_by_start actions) :
  _merge_similar_actions actions = merge_spec actions
  /\ _merge_similar_actions [] = []
  /\ map opening (_merge_similar_actions actions)
       `sublist_of` map opening actions
  /\ last (map DetectedAction.timestamp_end (_merge_similar_actions actions))
     = last (map DetectedAction.timestamp_end actions)
  /\ ordered_by_start (_merge_similar_actions actions).
Proof.
  assert (Hopen : map opening (_merge_similar_actions actions)
                    `sublist_of` map opening actions).
  { rewrite merge_refines_walk.
    destruct actions as [|first rest]; [done | apply walk_openings]. }
  split; [apply merge_refines_walk|]. split; [done|]. split; [done|]. split.
  - rewrite merge_refines_walk.
    destruct actions as [|first rest]; [done | apply walk_last_end].
  - unfold ordered_by_start in *.
    eapply sublist_strongly_sorted; [|exact Hord].
    apply (fmap_sublist snd) in Hopen.
    by rewrite <- !list_fmap_compose in Hopen.
Qed.

(** C6 on the worked input of the merger. *)
Lemma merge_is_single_walk_witness :
  ordered_by_start mixing_actions
  /\ _merge_similar_actions mixing_actions = merge_spec mixing_actions
  /\ ordered_by_start (_merge_similar_actions mixing_actions).
Proof.
  assert (Hord : ordered_by_start mixing_actions).
  { unfold ordered_by_start. cbn.
    repeat (constructor; [|repeat (constructor; [by vm_compute|]); constructor]).
    constructor. }
  pose proof (merge_is_single_walk mixing_actions Hord) as (H1 & _ & _ & _ & H5).
  split; [exact Hord|]. split; [exact H1 | exact H5].
Defined.

(** C2 (as stated, refuted): on the worked input the merger does not
    produce the two intervals (0,10,mixing) and (40,45,mixing). *)
Lemma merge_mixing_not_two_intervals :
  map interval (_merge_similar_actions mixing_actions)
  <> [(inject_Z 0, inject_Z 10, utf8 "mixing");
      (inject_Z 40, inject_Z 45, utf8 "mixing")].
Proof. vm_compute. discriminate. Qed.

(** C2 (amended): on the worked input the merger produces exactly three
    intervals, the input unchanged: the score of the first two
    descriptions is exactly one half, which is not above the threshold,
    and the third action starts 30 seconds after the second ends. *)
Theorem merge_mixing_three_intervals :
  _merge_similar_actions mixing_actions = mixing_actions
  /\ map interval (_merge_similar_actions mixing_actions)
     = [(inject_Z 0, inject_Z 5, utf8 "mixing");
        (inject_Z 6, inject_Z 10, utf8 "mixing water");
        (inject_Z 40, inject_Z 45, utf8 "mixing")]
  /\ _calculate_match_score (utf8 "mixing") (utf8 "mixing water") == 1 # 2.
Proof. split; [|split]; by vm_compute. Qed.

(** ** The batch matcher *)

Lemma mapM_Ok {A B} (f : A -> result B) (l : list A) (k : list B) :
  mapM f l = Ok k -> Forall2 (fun x y => f x = Ok y) l k.
Proof.
  revert k. induction l as [|x l IH]; intros k; cbn.
  - intros [= <-]. constructor.
  - destruct (f x) as [y|] eqn:Hx; cbn; [|done].
    destruct (mapM f l) as [k'|]; cbn; [|done].
    intros [= <-]. constructor; auto.
Qed.

Section Matcher.
Context {table : CaseTable}.

Lemma best_scoring_action_spec (step : InstructionStep.t)
    (actions : list DetectedAction.t) :
  best_so_far step actions (best_scoring_action actions step).
Proof.
  unfold best_scoring_action.
  induction actions as [|a actions IH] using rev_ind.
  - repeat split; cbn; [lra | constructor].
  - rewrite fold_left_app. cbn [fold_left].
    destruct (fold_left _ actions _) as [bs bm].
    destruct IH as (Hpos & Hall & Hbest). cbn [fst snd] in *.
    fold (step_score step a).
    destruct (Qltb bs (step_score step a)) eqn:Hlt.
    + apply Qltb_lt in Hlt. repeat split; cbn [fst snd].
      * lra.
      * apply Forall_app. split.
        -- eapply Forall_impl; [exact Hall|]. cbn. intros; lra.
        -- repeat constructor. lra.
      * lra.
      * exists (length actions). split; [by rewrite list_lookup_middle|].
        split; [done|]. intros j b Hj Hb.
        rewrite lookup_app_l in Hb by done.
        rewrite Forall_forall in Hall.
        apply list_elem_of_lookup_2, Hall in Hb. lra.
    + apply Qltb_ge in Hlt. repeat split; cbn [fst snd]; [done| |].
      * apply Forall_app. split; [done | by repeat constructor].
      * destruct bm as [b|]; [|done].
        destruct Hbest as (Hb0 & i & Hi & Hsc & Hfirst).
        split; [done|]. exists i.
        assert (i < length actions)%nat by (by eapply lookup_lt_Some).
        split; [by rewrite lookup_app_l|]. split; [done|].
        intros j c Hj Hc. rewrite lookup_app_l in Hc by lia. eauto.
Qed.

Lemma match_step_spec (llm_response : text)
    (detected_actions : list DetectedAction.t) (step : InstructionStep.t)
    (m : ActionMatch.t) :
  match_step llm_response detected_actions step = Ok m ->
  ActionMatch.step_number m = InstructionStep.step_number step
  /\ (ActionMatch.matched m = false -> ActionMatch.detected_action m = None)
  /\ (Re.search true (step_pattern (InstructionStep.step_number step))
        llm_response = None ->
      ActionMatch.detected_action m = None -> ActionMatch.matched m = false).
Proof.
  unfold match_step.
  destruct (Re.search true _ llm_response) as [regex_match|].
  - cbn zeta.
    destruct (bool_decide _);
      [destruct (bind_time_range _ _) as [bm|]|]; cbn; [|done|];
      intros [= <-]; cbn; done.
  - pose proof (best_scoring_action_spec step detected_actions) as Hbest.
    destruct (best_scoring_action detected_actions step) as [bs bm].
    intros [= <-]. cbn. split; [done|].
    destruct (Qltb (1 # 4) bs) eqn:Hlt; [|done].
    split; [done|]. intros _ ->. exfalso.
    apply Qltb_lt in Hlt. destruct Hbest as (_ & _ & Hbm). cbn in Hbm.
    rewrite Hbm in Hlt. lra.
Qed.

End Matcher.

Section MatcherClaims.
Context {table : CaseTable}.

Lemma match_step_unparsed (llm_response : text)
    (detected_actions : list DetectedAction.t) (step : InstructionStep.t) :
  unparsed llm_response step ->
  exists m,
    match_step llm_response detected_actions step = Ok m
    /\ fallback_outcome step detected_actions m.
Proof.
  unfold unparsed, match_step. intros ->.
  pose proof (best_scoring_action_spec step detected_actions) as Hbest.
  destruct (best_scoring_action detected_actions step) as [bs bm].
  destruct Hbest as (Hpos & Hall & Hbm). cbn [fst snd] in *.
  eexists. split; [reflexivity|]. exists bs.
  cbn [ActionMatch.step_number ActionMatch.matched
       ActionMatch.detected_action ActionMatch.deviation].
  split; [done|]. split.
  { destruct bm as [a|]; [|by left].
    destruct Hbm as (_ & i & Hi & Hsc & _). right. exists a.
    split; [by eapply list_elem_of_lookup_2 | done]. }
  split; [done|]. split; [apply Qltb_lt|].
  destruct (Qltb (1 # 4) bs) eqn:Hlt; [|done].
  split; [done|]. apply Qltb_lt in Hlt.
  destruct bm as [a|]; [|rewrite Hbm in Hlt; lra].
  destruct Hbm as (_ & i & Hi & Hsc & Hfirst). eauto 10.
Qed.

(** An exception of the matcher comes from a step whose line did parse
    (from [float] on its time range), never from an unparsed line. *)
Lemma errors_come_from_parsed_lines (llm_response : text)
    (detected_actions : list DetectedAction.t) (instruction : Instruction.t)
    (e : exn) :
  match_with_instruction llm_response detected_actions instruction = Raise e ->
  exists st,
    st ∈ Instruction.steps instruction
    /\ ~ unparsed llm_response st
    /\ match_step llm_response detected_actions st = Raise e.
Proof.
  unfold match_with_instruction.
  induction (Instruction.steps instruction) as [|st rest IH]; cbn [mapM]; [done|].
  destruct (match_step llm_response detected_actions st) as [m|e'] eqn:Hst;
    cbn.
  - destruct (mapM _ rest) as [k|e'']; cbn; [done|].
    intros [= ->]. destruct IH as (st' & Hin & Hp & Hr); [done|].
    exists st'. split; [by right | done].
  - intros [= ->]. exists st. split; [by left|]. split; [|done].
    intros Hun. destruct (match_step_unparsed _ detected_actions _ Hun)
      as (m & Hm & _). congruence.
Qed.

End MatcherClaims.

(** C7 (defect of the code): a reply line that matches the line
    pattern but whose time range is not a number is a parse failure
    that surfaces as an error.  On the reply [dotted_reply] the line of
    step 1 matches, [float] raises [ValueError] on [1.2.3], nothing
    catches it, and the whole matcher aborts, although the line of
    step 2 is absent and the fallback would resolve it. *)
Theorem malformed_line_aborts_matcher :
  ~ unparsed dotted_reply (step 1 "prepare mold")
  /\ match_step dotted_reply mold_actions (step 1 "prepare mold")
     = Raise (ValueError (utf8 "1.2.3"))
  /\ unparsed dotted_reply (step 2 "pour mixture")
  /\ match_with_instruction dotted_reply mold_actions mold_instruction
     = Raise (ValueError (utf8 "1.2.3")).
Proof.
  split; [by vm_compute|]. split; [by vm_compute|].
  split; by vm_compute.
Qed.

(** The fallback proper: a step whose line is absent from the reply
    (the line pattern finds no match) is resolved without error by the
    similarity fallback: every detected action is scored against the
    step, an action of maximal score is picked, the step is matched
    exactly when that score exceeds 0.25, the action is bound only then,
    and an unmatched step records the deviation text. *)
Lemma unparsed_step_falls_back {table : CaseTable} (llm_response : text)
    (detected_actions : list DetectedAction.t) (step : InstructionStep.t)
    (Hparse : unparsed llm_response step) :
  exists m,
    match_step llm_response detected_actions step = Ok m
    /\ fallback_outcome step detected_actions m.
Proof. by apply match_step_unparsed. Qed.

(** The fallback on step 2 of the scenario, with a reply out of format. *)
Lemma unparsed_step_falls_back_witness :
  unparsed free_reply (step 2 "pour mixture")
  /\ exists m,
       match_step free_reply mold_actions (step 2 "pour mixture") = Ok m
       /\ fallback_outcome (step 2 "pour mixture") mold_actions m.
Proof.
  assert (H : unparsed free_reply (step 2 "pour mixture")) by (by vm_compute).
  split; [exact H|].
  exact (unparsed_step_falls_back free_reply mold_actions
           (step 2 "pour mixture") H).
Defined.

(** C1 (as stated, refuted): a reply line with a positive verdict and a
    time range more than 30 seconds away from every detected action
    yields a match with [matched=true] and no bound action. *)
Lemma matched_without_bound_action :
  let m := ActionMatch.mk 1 true None None in
  match_with_instruction late_reply mold_actions
    (Instruction.mk (utf8 "Casting") [step 1 "prepare mold"]) = Ok [m]
  /\ ~ (ActionMatch.matched m = false <->
        ActionMatch.detected_action m = None).
Proof.
  split; [by vm_compute|]. cbn. intros [_ H]. by specialize (H eq_refl).
Qed.

(** C1 (amended): every match the batch matcher produces belongs to its
    step and carries no action when [matched=false]; for a step whose
    reply line does not parse, [matched=false] holds if and only if no
    action is bound.  (A parsed positive verdict stays [matched=true]
    whether or not an action could be bound.) *)
Theorem unmatched_binds_no_action {table : CaseTable} (llm_response : text)
    (detected_actions : list DetectedAction.t) (instruction : Instruction.t)
    (matches : list ActionMatch.t)
    (Hrun : match_with_instruction llm_response detected_actions instruction
            = Ok matches) :
  Forall2 (bound_only_if_matched llm_response)
    (Instruction.steps instruction) matches.
Proof.
  apply mapM_Ok in Hrun.
  eapply Forall2_impl; [exact Hrun|]. cbn. intros stp m Hm.
  apply match_step_spec in Hm as (Hn & Hnone & Hconv).
  split; [done|]. split; [done|]. intros Hun. split; [done | by apply Hconv].
Qed.

(** The amended C1 on the scenario, with a reply in the format. *)
Lemma unmatched_binds_no_action_witness :
  match_with_instruction mold_reply mold_actions mold_instruction
  = Ok [ActionMatch.mk 1 true (Some (action 0 15 "cleaning and preparing the mold")) None;
        ActionMatch.mk 2 false None (Some (utf8 "Действие не обнаружено"))]
  /\ Forall2 (bound_only_if_matched mold_reply) mold_steps
       [ActionMatch.mk 1 true (Some (action 0 15 "cleaning and preparing the mold")) None;
        ActionMatch.mk 2 false None (Some (utf8 "Действие не обнаружено"))].
Proof.
  assert (H : match_with_instruction mold_reply mold_actions mold_instruction
              = Ok [ActionMatch.mk 1 true (Some (action 0 15 "cleaning and preparing the mold")) None;
                    ActionMatch.mk 2 false None (Some (utf8 "Действие не обнаружено"))])
    by (by vm_compute).
  split; [exact H|].
  exact (unmatched_binds_no_action mold_reply mold_actions mold_instruction _ H).
Defined.

(** C3 (as stated, refuted): with a reply that parses for neither step,
    the fallback matches neither step of the scenario, and both steps
    are reported missing. *)
Lemma mold_scenario_steps_missing :
  unparsed free_reply (step 1 "prepare mold")
  /\ unparsed free_reply (step 2 "pour mixture")
  /\ match_with_instruction free_reply mold_actions mold_instruction
     = Ok [unmatched 1; unmatched 2]
  /\ missing_steps [unmatched 1; unmatched 2] <> [].
Proof. repeat split; by vm_compute. Qed.

(** C3 (amended): in the scenario, whenever the reply parses for neither
    step, the fallback leaves both steps unmatched with the deviation
    text and no bound action, so [missing_steps] is [1, 2]: no action
    scores above one fifth against either step, which is not above the
    threshold of 0.25. *)
Theorem mold_scenario_fallback (title llm_response : text)
    (H1 : unparsed llm_response (step 1 "prepare mold"))
    (H2 : unparsed llm_response (step 2 "pour mixture")) :
  match_with_instruction llm_response mold_actions
    (Instruction.mk title mold_steps)
  = Ok [unmatched 1; unmatched 2]
  /\ missing_steps [unmatched 1; unmatched 2] = [1; 2]%Z
  /\ Forall (fun st =>
        Forall (fun a => step_score st a <= 1 # 5) mold_actions) mold_steps.
Proof.
  split; [|split].
  - unfold match_with_instruction, unparsed in *. cbn [Instruction.steps mold_steps mapM].
    unfold match_step. rewrite H1, H2. by vm_compute.
  - by vm_compute.
  - repeat constructor; by vm_compute.
Qed.

(** The amended C3 with a reply out of format. *)
Lemma mold_scenario_fallback_witness :
  unparsed free_reply (step 1 "prepare mold")
  /\ unparsed free_reply (step 2 "pour mixture")
  /\ match_with_instruction free_reply mold_actions mold_instruction
     = Ok [unmatched 1; unmatched 2].
Proof.
  assert (H1 : unparsed free_reply (step 1 "prepare mold")) by (by vm_compute).
  assert (H2 : unparsed free_reply (step 2 "pour mixture")) by (by vm_compute).
  split; [exact H1|]. split; [exact H2|].
  exact (proj1 (mold_scenario_fallback (utf8 "Casting") free_reply H1 H2)).
Defined.

(** ** The live tracker *)

Section TrackerClaims.
Context {table : CaseTable}.

(** The first later step that matches what was observed. *)
Lemma scan_later_steps_finds (steps : list InstructionStep.t) (i : nat)
    (current : nat) (observed : text) (j : nat) (later : InstructionStep.t) :
  (current < i + j)%nat ->
  steps !! j = Some later ->
  3 # 10 < _calculate_match_score (InstructionStep.description later) observed ->
  exists (k : nat) detected,
    scan_later_steps i steps current observed = Some detected
    /\ (current < i + k)%nat /\ (k <= j)%nat
    /\ steps !! k = Some detected
    /\ 3 # 10 < _calculate_match_score (InstructionStep.description detected)
                  observed.
Proof.
  revert i j. induction steps as [|st rest IH]; intros i j Hj Hlook Hhigh; [done|].
  cbn [scan_later_steps]. case_bool_decide as Hi.
  - destruct j as [|j]; [lia|]. cbn in Hlook.
    destruct (IH (S i) j) as (k & d & Hscan & Hk & Hkj & Hd & Hsc);
      [lia | done | done |].
    exists (S k), d. repeat split; first [done | lia].
  - destruct (Qltb (3 # 10) _) eqn:Hst.
    + apply Qltb_lt in Hst. exists 0%nat, st.
      repeat split; first [done | lia].
    + destruct j as [|j].
      { cbn in Hlook. injection Hlook as ->. apply Qltb_ge in Hst. lra. }
      cbn in Hlook.
      destruct (IH (S i) j) as (k & d & Hscan & Hk & Hkj & Hd & Hsc);
        [lia | done | done |].
      exists (S k), d. repeat split; first [done | lia].
Qed.

(** What one call changes, whatever the branch taken. *)
Lemma analyze_frame_effect (self : LiveAnalyzer.t) (description : text)
    (timestamp : Q) :
  let self' := (analyze_frame self description timestamp).1 in
  instruction self' = instruction self
  /\ action_history self'
     = action_history self ++ [observation description timestamp]
  /\ current_action self' = Some (observation description timestamp)
  /\ last_analysis_time self' = timestamp
  /\ (current_step self <= current_step self')%nat
  /\ ((current_step self <= length (steps_of self))%nat ->
      (current_step self' <= length (steps_of self))%nat)
  /\ completed_steps self `prefix_of` completed_steps self'.
Proof.
  unfold analyze_frame, _check_instruction_compliance, steps_of.
  cbn [instruction current_action current_step completed_steps warnings
       action_history last_analysis_time analysis_interval].
  destruct (Instruction.steps (instruction self) !! current_step self)
    as [expected|] eqn:Hexp.
  - apply lookup_lt_Some in Hexp.
    destruct (Qltb (3 # 10) _).
    + cbn [fst instruction current_action current_step completed_steps
           action_history last_analysis_time].
      repeat split; first [done | lia | by apply prefix_app_r].
    + destruct (scan_later_steps _ _ _ _);
        cbn [fst instruction current_action current_step completed_steps
             action_history last_analysis_time];
        repeat split; done.
  - cbn [fst instruction current_action current_step completed_steps
         action_history last_analysis_time].
    repeat split; done.
Qed.

Lemma run_effect (frames : list (text * Q)) (self : LiveAnalyzer.t) :
  let self' := (run self frames).1 in
  instruction self' = instruction self
  /\ action_history self'
     = action_history self ++ map (fun f => observation f.1 f.2) frames
  /\ (current_step self <= current_step self')%nat
  /\ ((current_step self <= length (steps_of self))%nat ->
      (current_step self' <= length (steps_of self))%nat)
  /\ completed_steps self `prefix_of` completed_steps self'.
Proof.
  revert self. induction frames as [|[description timestamp] rest IH];
    intros self; cbn [run].
  - cbn [fst map]. rewrite app_nil_r. repeat split; done.
  - pose proof (analyze_frame_effect self description timestamp)
      as (Hi & Hh & _ & _ & Hc & Hb & Hp).
    destruct (analyze_frame self description timestamp) as [self1 result].
    cbn [fst] in *. specialize (IH self1).
    destruct (run self1 rest) as [self2 results]. cbn [fst snd map] in *.
    destruct IH as (Hi' & Hh' & Hc' & Hb' & Hp').
    unfold steps_of in *. rewrite Hi in *.
    split; [by rewrite Hi'|]. split; [by rewrite Hh', Hh, <- app_assoc|].
    split; [lia|]. split; [auto | by etrans].
Qed.

End TrackerClaims.

(** C4: over any session the cursor [current_step] never decreases and
    never exceeds the number of steps, and [completed_steps] only grows
    at its end: what was recorded after some calls is a prefix of what
    is recorded after any further calls. *)
Theorem cursor_monotone_completed_append_only {table : CaseTable}
    (instruction : Instruction.t) (analysis_interval : Q)
    (frames further : list (text * Q)) :
  let self1 := (run (init instruction analysis_interval) frames).1 in
  let self2 := (run self1 further).1 in
  (current_step self1 <= current_step self2)%nat
  /\ (current_step self2 <= length (Instruction.steps instruction))%nat
  /\ completed_steps self1 `prefix_of` completed_steps self2.
Proof.
  intros self1 self2.
  pose proof (run_effect frames (init instruction analysis_interval))
    as (Hi1 & _ & _ & Hb1 & _).
  pose proof (run_effect further self1) as (Hi2 & _ & Hc2 & Hb2 & Hp2).
  fold self1 in Hi1, Hb1. fold self2 in Hi2, Hc2, Hb2, Hp2.
  unfold steps_of in *. rewrite Hi1 in Hb2. cbn in Hb1, Hb2.
  split; [done|]. split; [|done]. apply Hb2, Hb1. lia.
Qed.

(** C5: once the cursor has reached the number of steps, every further
    call returns the completed status and leaves the cursor, the
    completed steps and the warnings as they were. *)
Theorem completed_is_absorbing {table : CaseTable} (self : LiveAnalyzer.t)
    (frames : list (text * Q))
    (Hdone : (length (steps_of self) <= current_step self)%nat) :
  Forall (has_status "completed") (run self frames).2
  /\ length (run self frames).2 = length frames
  /\ current_step (run self frames).1 = current_step self
  /\ completed_steps (run self frames).1 = completed_steps self
  /\ warnings (run self frames).1 = warnings self.
Proof.
  revert self Hdone.
  induction frames as [|[description timestamp] rest IH]; intros self Hdone.
  { cbn. repeat split; done. }
  cbn [run].
  assert (Hstep : exists self1 result,
             analyze_frame self description timestamp = (self1, result)
             /\ has_status "completed" result
             /\ instruction self1 = instruction self
             /\ current_step self1 = current_step self
             /\ completed_steps self1 = completed_steps self
             /\ warnings self1 = warnings self).
  { unfold analyze_frame, _check_instruction_compliance, steps_of in *.
    cbn [instruction current_action current_step completed_steps warnings
         action_history last_analysis_time analysis_interval].
    rewrite (lookup_ge_None_2 _ _ Hdone).
    eexists _, _. split; [reflexivity|]. repeat split; done. }
  destruct Hstep as (self1 & result & -> & Hst & Hi & Hc & Hco & Hw).
  destruct (IH self1) as (Hall & Hlen & Hc' & Hco' & Hw').
  { unfold steps_of in *. by rewrite Hi, Hc. }
  destruct (run self1 rest) as [self2 results]. cbn [fst snd length] in *.
  split; [by constructor|]. split; [by rewrite Hlen|].
  split; [by rewrite Hc'|]. split; [by rewrite Hco' | by rewrite Hw'].
Qed.

(** C5 on a one-step session after its step is completed. *)
Lemma completed_is_absorbing_witness :
  (length (steps_of pour_done) <= current_step pour_done)%nat
  /\ Forall (has_status "completed")
       (run pour_done [(utf8 "pour again", 6); (utf8 "clean up", 11)]).2
  /\ completed_steps
       (run pour_done [(utf8 "pour again", 6); (utf8 "clean up", 11)]).1
     = completed_steps pour_done.
Proof.
  assert (H : (length (steps_of pour_done) <= current_step pour_done)%nat)
    by (vm_compute; lia).
  pose proof (completed_is_absorbing pour_done
                [(utf8 "pour again", 6); (utf8 "clean up", 11)] H)
    as (H1 & _ & _ & H4 & _).
  split; [exact H|]. split; [exact H1 | exact H4].
Defined.

(** C8: when the observation scores at most 0.3 against the expected
    step and above 0.3 against a later step, the call issues the
    out-of-order warning for the first such later step: the status is
    warning, the event names the expected and the detected step, the
    warning is logged, the cursor stays and no step is completed. *)
Theorem out_of_order_warns {table : CaseTable} (self : LiveAnalyzer.t)
    (description : text) (timestamp : Q)
    (expected_step later : InstructionStep.t) (j : nat)
    (Hexpected : steps_of self !! current_step self = Some expected_step)
    (Hlow : _calculate_match_score (InstructionStep.description expected_step)
              description <= 3 # 10)
    (Hafter : (current_step self < j)%nat)
    (Hlater : steps_of self !! j = Some later)
    (Hhigh : 3 # 10 < _calculate_match_score
                        (InstructionStep.description later) description) :
  exists (k : nat) detected,
    (current_step self < k <= j)%nat
    /\ steps_of self !! k = Some detected
    /\ 3 # 10 < _calculate_match_score
                  (InstructionStep.description detected) description
    /\ warned self (analyze_frame self description timestamp).1
         (analyze_frame self description timestamp).2
         expected_step detected.
Proof.
  destruct (scan_later_steps_finds (steps_of self) 0 (current_step self)
              description j later) as (k & detected & Hscan & Hk & Hkj & Hd & Hsc);
    [lia | done | done |].
  exists k, detected. split; [lia|]. split; [done|]. split; [done|].
  unfold analyze_frame, _check_instruction_compliance, steps_of in *.
  cbn [instruction current_action current_step completed_steps warnings
       action_history last_analysis_time analysis_interval
       observation DetectedAction.description].
  rewrite Hexpected. apply Qltb_ge in Hlow. rewrite Hlow, Hscan.
  repeat split.
Qed.

(** C8 on the scenario: step 2 is observed while step 1 is expected. *)
Lemma out_of_order_warns_witness :
  let self := init (Instruction.mk (utf8 "Casting") mold_steps) 5 in
  exists (k : nat) detected,
    (current_step self < k <= 1)%nat
    /\ steps_of self !! k = Some detected
    /\ 3 # 10 < _calculate_match_score
                  (InstructionStep.description detected)
                  (utf8 "we pour mixture")
    /\ warned self (analyze_frame self (utf8 "we pour mixture") 1).1
         (analyze_frame self (utf8 "we pour mixture") 1).2
         (step 1 "prepare mold") detected.
Proof.
  apply (out_of_order_warns
           (init (Instruction.mk (utf8 "Casting") mold_steps) 5)
           (utf8 "we pour mixture") 1
           (step 1 "prepare mold") (step 2 "pour mixture") 1).
  - reflexivity.
  - vm_compute. discriminate.
  - vm_compute. lia.
  - reflexivity.
  - vm_compute. reflexivity.
Defined.

(** C10: every call, in every state, appends to [action_history] exactly
    one action that starts and ends at the time stamp of the frame,
    makes it the current action and records the time stamp as the time
    of the last analysis; over a session the history grows by one
    action per call, also once every step is completed. *)
Theorem every_frame_is_recorded {table : CaseTable} (self : LiveAnalyzer.t)
    (description : text) (timestamp : Q) (frames : list (text * Q)) :
  let self' := (analyze_frame self description timestamp).1 in
  action_history self'
  = action_history self ++ [observation description timestamp]
  /\ DetectedAction.timestamp_start (observation description timestamp)
     = timestamp
  /\ DetectedAction.timestamp_end (observation description timestamp)
     = timestamp
  /\ current_action self' = Some (observation description timestamp)
  /\ last_analysis_time self' = timestamp
  /\ action_history (run self frames).1
     = action_history self ++ map (fun f => observation f.1 f.2) frames
  /\ length (action_history (run self frames).1)
     = (length (action_history self) + length frames)%nat.
Proof.
  intros self'.
  pose proof (analyze_frame_effect self description timestamp)
    as (_ & Hh & Ha & Ht & _).
  pose proof (run_effect frames self) as (_ & Hr & _).
  repeat split; try done.
  rewrite Hr, length_app, length_map. done.
Qed.

(** ** Runs of the regular-expression matcher *)

Section RegexRuns.
Variable ic : bool.

Lemma exec_consumes (r : Re.regex) (s : text) (g : Re.groups)
    (k : text -> Re.groups -> option Re.groups) (m : Re.groups) :
  Re.exec ic r s g k = Some m ->
  exists s' g', consumes ic r s g s' g' /\ k s' g' = Some m.
Proof.
  revert s g k.
  induction r as [|c|p|r1 IH1 r2 IH2|r1 IH1 r2 IH2|r1 IH1|r1 IH1|n r1 IH1];
    intros s g k; cbn [Re.exec].
  - intros Hk. exists s, g. split; [constructor | done].
  - destruct s as [|x s]; [done|].
    destruct (Re.lit_matches ic c x) eqn:Hc; [|done].
    intros Hk. exists s, g. split; [by constructor | done].
  - destruct s as [|x s]; [done|].
    destruct (p x) eqn:Hp; [|done].
    intros Hk. exists s, g. split; [by constructor | done].
  - intros H. apply IH1 in H as (s1 & g1 & H1 & H).
    apply IH2 in H as (s2 & g2 & H2 & H).
    exists s2, g2. split; [by econstructor | done].
  - destruct (Re.exec ic r1 s g k) as [m'|] eqn:H1.
    + intros [= ->]. apply IH1 in H1 as (s' & g' & H1 & Hk).
      exists s', g'. split; [by apply consumes_alt_l | done].
    + intros H2. apply IH2 in H2 as (s' & g' & H2 & Hk).
      exists s', g'. split; [by apply consumes_alt_r | done].
  - generalize (length s) at 1. intros fuel. revert s g.
    induction fuel as [|fuel IHf]; intros s g.
    + intros Hk. exists s, g. split; [constructor | done].
    + destruct (Re.exec ic r1 s g _) as [m'|] eqn:H1.
      * intros [= ->]. apply IH1 in H1 as (s1 & g1 & H1 & Hk).
        case_bool_decide; [|done].
        apply IHf in Hk as (s2 & g2 & H2 & Hk).
        exists s2, g2. split; [by econstructor | done].
      * intros Hk. exists s, g. split; [constructor | done].
  - destruct (Re.exec ic r1 s g k) as [m'|] eqn:H1.
    + intros [= ->]. apply IH1 in H1 as (s' & g' & H1 & Hk).
      exists s', g'. split; [by apply consumes_opt | done].
    + intros Hk. exists s, g. split; [apply consumes_opt_skip | done].
  - intros H. apply IH1 in H as (s' & g' & H1 & Hk).
    eexists s', _. split; [by constructor | done].
Qed.

Lemma search_unfold (r : Re.regex) (s : text) :
  Re.search ic r s
  = match Re.exec ic r s ∅ (fun _ g => Some g) with
    | Some g => Some g
    | None => match s with [] => None | _ :: s' => Re.search ic r s' end
    end.
Proof. by destruct s. Qed.

Lemma search_consumes (r : Re.regex) (s : text) (m : Re.groups) :
  Re.search ic r s = Some m ->
  exists s0 s', s0 `suffix_of` s /\ consumes ic r s0 ∅ s' m.
Proof.
  induction s as [|x s IH]; rewrite search_unfold;
    destruct (Re.exec ic r _ ∅ _) as [g|] eqn:H; try done.
  - intros [= ->]. apply exec_consumes in H as (s' & g' & H & [= ->]).
    by exists [], s'.
  - intros [= ->]. apply exec_consumes in H as (s' & g' & H & [= ->]).
    by exists (x :: s), s'.
  - intros H'. apply IH in H' as (s0 & s' & Hs & H').
    exists s0, s'. split; [by apply suffix_cons_r | done].
Qed.

Lemma consumes_suffix (r : Re.regex) (s s' : text) (g g' : Re.groups) :
  consumes ic r s g s' g' -> s' `suffix_of` s.
Proof.
  induction 1; try done.
  - by apply suffix_cons_r.
  - by apply suffix_cons_r.
  - by etrans.
  - by etrans.
Qed.

Lemma consumes_group_free (r : Re.regex) (s s' : text) (g g' : Re.groups) :
  consumes ic r s g s' g' -> group_free r = true -> g' = g.
Proof.
  induction 1; cbn [group_free]; rewrite ?andb_true_iff; try done.
  - intros [??]. by rewrite IHconsumes2, IHconsumes1.
  - intros [??]; auto.
  - intros [??]; auto.
  - intros Hr. rewrite IHconsumes2, IHconsumes1; done.
Qed.

(** A starred class consumes a run of code points of the class. *)
Lemma consumes_star_one_of (p : char -> bool) (s s' : text)
    (g g' : Re.groups) :
  consumes ic (Re.Star (Re.OneOf p)) s g s' g' ->
  g' = g /\ exists pre, s = pre ++ s' /\ Forall (fun x => p x = true) pre.
Proof.
  remember (Re.Star (Re.OneOf p)) as r eqn:Hr.
  induction 1 as [| | | | | | | | r s g | r s g s1 g1 s2 g2 H1 _ H2 IH2 |];
    try discriminate.
  - split; [done|]. by exists [].
  - injection Hr as ->. destruct (IH2 eq_refl) as (-> & pre & -> & Hpre).
    inversion H1; subst. split; [done|].
    exists (x :: pre). split; [done | by constructor].
Qed.

Lemma consumes_lits (w s s' : text) (g g' : Re.groups) :
  consumes ic (Re.Lits w) s g s' g' ->
  g' = g /\ exists pre,
    s = pre ++ s' /\ Forall2 (fun c x => Re.lit_matches ic c x = true) w pre.
Proof.
  revert s g. induction w as [|c w IH]; intros s g; cbn [Re.Lits].
  - inversion 1; subst. split; [done|]. by exists [].
  - inversion 1 as [| | |? ? ? ? s1 g1 ? ? Hc Hw| | | | | | |]; subst.
    inversion Hc; subst. apply IH in Hw as (-> & pre & -> & Hpre).
    split; [done|]. exists (x :: pre). split; [done | by constructor].
Qed.

End RegexRuns.

(** ** The two patterns of the matcher *)

Lemma group_free_lits (w : text) : group_free (Re.Lits w) = true.
Proof. induction w as [|c w IH]; [done | exact IH]. Qed.

Lemma take_consumed (pre s' : text) :
  take (length (pre ++ s') - length s') (pre ++ s') = pre.
Proof.
  rewrite length_app.
  replace (length pre + length s' - length s')%nat with (length pre) by lia.
  by rewrite take_app_length.
Qed.

Lemma consumes_group_inv (ic : bool) (n : nat) (r : Re.regex) (s s' : text)
    (g g'' : Re.groups) :
  consumes ic (Re.Group n r) s g s' g'' ->
  exists pre g',
    consumes ic r s g s' g' /\ s = pre ++ s' /\ g'' = <[n := pre]> g'.
Proof.
  inversion 1 as [| | | | | | | | | |? ? ? ? ? g' Hr]; subst.
  destruct (consumes_suffix _ _ _ _ _ _ Hr) as [pre ->].
  exists pre, g'. by rewrite take_consumed.
Qed.

Lemma consumes_plus_one_of (ic : bool) (p : char -> bool) (s s' : text)
    (g g' : Re.groups) :
  consumes ic (Re.Plus (Re.OneOf p)) s g s' g' ->
  g' = g /\ exists pre,
    s = pre ++ s' /\ pre <> [] /\ Forall (fun x => p x = true) pre.
Proof.
  unfold Re.Plus.
  inversion 1 as [| | |? ? ? ? s1 g1 ? ? H1 H2| | | | | | |]; subst.
  inversion H1; subst.
  apply consumes_star_one_of in H2 as (-> & pre & -> & Hpre).
  split; [done|]. exists (x :: pre). split; [done|]. split; [done|].
  by constructor.
Qed.

(** Under [re.IGNORECASE] a code point matches a literal when it is the
    literal or shares a case class with it. *)
Lemma ignorecase_eq_cases (c x : char) :
  Re.ignorecase_eq c x = true ->
  x = c \/ exists cls, In cls Re.case_classes /\ c ∈ cls /\ x ∈ cls.
Proof.
  unfold Re.ignorecase_eq. rewrite orb_true_iff, N.eqb_eq, existsb_exists.
  intros [->|(cls & Hin & H)]; [by left|]. right. exists cls.
  apply andb_true_iff in H as [H1 H2].
  by rewrite !bool_decide_eq_true in H1, H2.
Qed.

Ltac list_cases H :=
  repeat (apply elem_of_cons in H as [H|H]; [try discriminate H|]);
  try (by apply elem_of_nil in H).

(** Upper-casing what matched a letter of a verdict token gives the
    letter back. *)
Lemma upper_char_of_match (c x : char) :
  c ∈ verdict_letters -> Re.ignorecase_eq c x = true -> Re.upper_char x = c.
Proof.
  intros Hc Hx. apply ignorecase_eq_cases in Hx as [->|(cls & Hin & Hc' & Hx)].
  - unfold verdict_letters in Hc. list_cases Hc; subst; reflexivity.
  - unfold verdict_letters in Hc. unfold Re.case_classes in Hin. cbn [In] in Hin.
    list_cases Hc; subst c;
      repeat (destruct Hin as [<-|Hin]; [list_cases Hc'|]); try done;
      list_cases Hx; subst x; reflexivity.
Qed.

Lemma upper_of_match (w pre : text) :
  Forall (fun c => c ∈ verdict_letters) w ->
  Forall2 (fun c x => Re.lit_matches true c x = true) w pre ->
  Re.upper pre = w.
Proof.
  intros Hw H. induction H as [|c x w pre Hcx _ IH]; [done|].
  apply Forall_cons in Hw as [Hc Hw]. cbn [Re.upper map].
  f_equal; [by apply upper_char_of_match | by apply IH].
Qed.

Lemma consumes_cat_inv (ic : bool) (r1 r2 : Re.regex) (s s2 : text)
    (g g2 : Re.groups) :
  consumes ic (Re.Cat r1 r2) s g s2 g2 ->
  exists s1 g1, consumes ic r1 s g s1 g1 /\ consumes ic r2 s1 g1 s2 g2.
Proof. inversion 1; subst; eauto. Qed.

Lemma consumes_alt_inv (ic : bool) (r1 r2 : Re.regex) (s s' : text)
    (g g' : Re.groups) :
  consumes ic (Re.Alt r1 r2) s g s' g' ->
  consumes ic r1 s g s' g' \/ consumes ic r2 s g s' g'.
Proof. inversion 1; subst; eauto. Qed.

Lemma consumes_opt_inv (ic : bool) (r : Re.regex) (s s' : text)
    (g g' : Re.groups) :
  consumes ic (Re.Opt r) s g s' g' ->
  consumes ic r s g s' g' \/ (s' = s /\ g' = g).
Proof. inversion 1; subst; eauto. Qed.

Lemma consumes_lit_inv (ic : bool) (c : char) (s s' : text)
    (g g' : Re.groups) :
  consumes ic (Re.Lit c) s g s' g' ->
  exists x, s = x :: s' /\ Re.lit_matches ic c x = true /\ g' = g.
Proof. inversion 1; subst; eauto. Qed.

(** A group-free pattern keeps the groups and consumes a prefix. *)
Lemma consumes_plain (ic : bool) (r : Re.regex) (s s' : text)
    (g g' : Re.groups) :
  group_free r = true -> consumes ic r s g s' g' ->
  g' = g /\ s' `suffix_of` s.
Proof.
  intros Hr H. split; [by eapply consumes_group_free | by eapply consumes_suffix].
Qed.

Lemma verdict_consumed (s s' : text) (g g' : Re.groups) :
  consumes true
    (Re.Alt (Re.Lits (utf8 "DA")) (Re.Alt (Re.Lits (utf8 "NET"))
      (Re.Alt (Re.Lits (utf8 "YES")) (Re.Alt (Re.Lits (utf8 "NO"))
        (Re.Alt (Re.Lits (utf8 "ДА")) (Re.Lits (utf8 "НЕТ")))))))
    s g s' g' ->
  g' = g /\ exists verdict,
    s = verdict ++ s' /\ Re.upper verdict ∈ verdict_tokens.
Proof.
  intros H.
  assert (Hw : exists w, w ∈ verdict_tokens
                         /\ consumes true (Re.Lits w) s g s' g').
  { unfold verdict_tokens.
    repeat (apply consumes_alt_inv in H as [H|H];
            [eexists; split; [|exact H]; set_solver|]).
    eexists; split; [|exact H]; set_solver. }
  destruct Hw as (w & Hw & Hl).
  apply consumes_lits in Hl as (-> & verdict & -> & Hm).
  split; [done|]. exists verdict. split; [done|].
  rewrite (upper_of_match w verdict); [done| |done].
  unfold verdict_tokens in Hw.
  list_cases Hw; subst w; repeat constructor; set_solver.
Qed.

(** What the groups of a parsed reply line hold. *)
Lemma step_pattern_groups (n : Z) (llm_response : text) (g : Re.groups) :
  Re.search true (step_pattern n) llm_response = Some g ->
  (exists verdict,
     g !! 1%nat = Some verdict /\ Re.upper verdict ∈ verdict_tokens)
  /\ (forall time_range, g !! 2%nat = Some time_range ->
        time_range <> [] /\ (45%N ∉ time_range) /\ (93%N ∉ time_range))
  /\ (exists comment, g !! 3%nat = Some comment /\ (10%N ∉ comment)).
Proof.
  intros H. apply search_consumes in H as (s0 & s' & _ & H).
  unfold step_pattern in H. cbv zeta in H.
  apply consumes_cat_inv in H as (s1 & g1 & Hlabel & H).
  apply consumes_plain in Hlabel as [-> _]; [|apply group_free_lits].
  apply consumes_cat_inv in H as (s2 & g2 & H2 & H).
  apply consumes_plain in H2 as [-> _]; [|done].
  apply consumes_cat_inv in H as (s3 & g3 & Hverdict & H).
  apply consumes_group_inv in Hverdict as (verdict & gv & Hverdict & -> & ->).
  apply verdict_consumed in Hverdict as (-> & verdict' & Hv & Hupper).
  apply app_inv_tail in Hv as <-.
  apply consumes_cat_inv in H as (s4 & g4 & H4 & H).
  apply consumes_plain in H4 as [-> _]; [|done].
  apply consumes_cat_inv in H as (s5 & g5 & H5 & H).
  apply consumes_plain in H5 as [-> _]; [|done].
  apply consumes_cat_inv in H as (s6 & g6 & H6 & H).
  apply consumes_plain in H6 as [-> _]; [|done].
  apply consumes_cat_inv in H as (s7 & g7 & H7 & H).
  apply consumes_plain in H7 as [-> _]; [|done].
  apply consumes_cat_inv in H as (s8 & g8 & Hrange & H).
  apply consumes_cat_inv in H as (s9 & g9 & H9 & H).
  apply consumes_plain in H9 as [-> _]; [|done].
  apply consumes_cat_inv in H as (s10 & g10 & H10 & H).
  apply consumes_plain in H10 as [-> _]; [|done].
  apply consumes_cat_inv in H as (s11 & g11 & H11 & H).
  apply consumes_plain in H11 as [-> _]; [|done].
  apply consumes_cat_inv in H as (s12 & g12 & H12 & H).
  apply consumes_plain in H12 as [-> _]; [|done].
  apply consumes_group_inv in H as (comment & gc & Hcomment & -> & ->).
  apply consumes_star_one_of in Hcomment as (-> & pre & Hpre & Hdot).
  apply app_inv_tail in Hpre as <-.
  assert (Hdot' : 10%N ∉ comment).
  { intros Hin. rewrite Forall_forall in Hdot. by apply Hdot in Hin. }
  apply consumes_opt_inv in Hrange as [Hrange|[-> ->]].
  - apply consumes_group_inv in Hrange as (tr & gr & Hrange & -> & ->).
    apply consumes_plus_one_of in Hrange as (-> & pre' & Hpre' & Hne & Hcls).
    apply app_inv_tail in Hpre' as <-.
    split; [exists verdict; by simplify_map_eq|].
    split; [|exists comment; by simplify_map_eq].
    intros tr' Htr. unfold Re.groups in *. simplify_map_eq. split; [done|].
    rewrite Forall_forall in Hcls.
    split; intros Hin; by apply Hcls in Hin.
  - split; [exists verdict; by simplify_map_eq|].
    split; [|exists comment; by simplify_map_eq].
    intros tr'. by simplify_map_eq.
Qed.

(** The time pattern reads no second number from a text without a dash. *)
Lemma time_pattern_no_end (time_range : text) (tm : Re.groups) :
  45%N ∉ time_range ->
  Re.search false time_pattern time_range = Some tm ->
  tm !! 2%nat = None
  /\ exists number, tm !! 1%nat = Some number /\ number <> [].
Proof.
  intros Hdash H. apply search_consumes in H as (s0 & s' & Hs0 & H).
  unfold time_pattern in H. cbv zeta in H.
  apply consumes_cat_inv in H as (s1 & g1 & Hnumber & H).
  apply consumes_group_inv in Hnumber as (number & gn & Hnumber & -> & ->).
  apply consumes_plus_one_of in Hnumber as (-> & pre & Hpre & Hne & _).
  apply app_inv_tail in Hpre as <-.
  apply consumes_cat_inv in H as (s2 & g2 & H2 & H).
  apply consumes_plain in H2 as [-> Hs2]; [|done].
  apply consumes_cat_inv in H as (s3 & g3 & H3 & H).
  apply consumes_plain in H3 as [-> Hs3]; [|done].
  apply consumes_cat_inv in H as (s4 & g4 & H4 & H).
  apply consumes_plain in H4 as [-> Hs4]; [|done].
  apply consumes_opt_inv in H as [H|[-> ->]].
  - exfalso. apply Hdash.
    apply consumes_cat_inv in H as (s5 & g5 & Hd & _).
    apply consumes_lit_inv in Hd as (x & -> & Hx & _).
    cbn in Hx. apply N.eqb_eq in Hx as ->.
    assert (Hsuf : (45%N :: s5) `suffix_of` time_range).
    { etrans; [exact Hs4|]. etrans; [exact Hs3|]. etrans; [exact Hs2|].
      etrans; [|exact Hs0]. by apply suffix_app_r. }
    destruct Hsuf as [k ->]. set_solver.
  - split; [by simplify_map_eq|]. exists number. by simplify_map_eq.
Qed.

(** ** Binding an action to a parsed line *)

Lemma py_min_le_r (x y : Q) : py_min x y <= y.
Proof.
  unfold py_min. destruct (Qltb y x) eqn:H; [lra|]. by apply Qltb_ge in H.
Qed.

Lemma py_max_ge_r (x y : Q) : y <= py_max x y.
Proof.
  unfold py_max. destruct (Qltb x y) eqn:H; [lra|]. by apply Qltb_ge in H.
Qed.

Lemma py_max_zero (d : Q) : d <= 0 -> py_max 0 d = 0.
Proof.
  intros Hd. unfold py_max.
  destruct (Qltb 0 d) eqn:H; [apply Qltb_lt in H; lra | done].
Qed.

Lemma best_overlap_action_elem (detected_actions : list DetectedAction.t)
    (start_time end_time : Q) (a : DetectedAction.t) :
  best_overlap_action detected_actions start_time end_time = Some a ->
  a ∈ detected_actions.
Proof.
  unfold best_overlap_action.
  induction detected_actions as [|b l IH] using rev_ind; [done|].
  rewrite fold_left_app. cbn [fold_left].
  destruct (fold_left _ l _) as [bo bm]. cbn [snd] in *.
  destruct (Qltb bo _); cbn [snd].
  - intros [= ->]. set_solver.
  - intros H. apply IH in H. set_solver.
Qed.

(** At an instant no action has a positive overlap. *)
Lemma best_overlap_action_instant (detected_actions : list DetectedAction.t)
    (t : Q) :
  best_overlap_action detected_actions t t = None.
Proof.
  unfold best_overlap_action.
  match goal with |- snd (fold_left ?f _ _) = _ => set (turn := f) end.
  assert (H : fold_left turn detected_actions (0, None) = (0, None));
    [|by rewrite H].
  induction detected_actions as [|b l IH] using rev_ind; [done|].
  rewrite fold_left_app, IH. cbn [fold_left]. unfold turn. cbv beta zeta.
  pose proof (py_min_le_r (DetectedAction.timestamp_end b) t).
  pose proof (py_max_ge_r (DetectedAction.timestamp_start b) t).
  rewrite py_max_zero by (apply fsub_nonpos; lra). reflexivity.
Qed.

Lemma py_abs_Qabs (x : Q) : py_abs x == Qabs x.
Proof.
  unfold py_abs. destruct (Qltb x 0) eqn:H.
  - apply Qltb_lt in H. rewrite Qabs_neg; lra.
  - apply Qltb_ge in H. rewrite Qabs_pos; lra.
Qed.

(** The distance of the second loop at an instant. *)
Lemma distance_code (t : Q) (a : DetectedAction.t) :
  py_min (py_abs (fsub (DetectedAction.timestamp_start a) t))
         (py_abs (fsub (DetectedAction.timestamp_end a) t))
  == distance t a.
Proof.
  unfold distance, py_min.
  pose proof (py_abs_Qabs (fsub (DetectedAction.timestamp_start a) t)) as H1.
  pose proof (py_abs_Qabs (fsub (DetectedAction.timestamp_end a) t)) as H2.
  destruct (Q.min_spec (Qabs (fsub (DetectedAction.timestamp_start a) t))
              (Qabs (fsub (DetectedAction.timestamp_end a) t)))
    as [[Hlt ->]|[Hle ->]];
    destruct (Qltb _ _) eqn:H;
    [apply Qltb_lt in H | apply Qltb_ge in H
    | apply Qltb_lt in H | apply Qltb_ge in H]; lra.
Qed.

Lemma contains_instant_code (t : Q) (a : DetectedAction.t) :
  Qleb (DetectedAction.timestamp_start a) t
  && Qleb t (DetectedAction.timestamp_end a) = true
  <-> contains_instant t a.
Proof.
  unfold contains_instant. by rewrite andb_true_iff, !Qleb_le.
Qed.

(** What the second loop returns from a state in which the nearest
    distance met so far, [bound], is at most 30. *)
Lemma nearest_action_spec (detected_actions : list DetectedAction.t)
    (t : Q) (md : option Q) (bm : option DetectedAction.t) :
  let bound := match md with Some d => d | None => 30 end in
  let r := nearest_action detected_actions t t md bm in
  bound <= 30 ->
  (exists before a after,
     detected_actions = before ++ a :: after /\ r = Some a
     /\ Forall (fun b => ~ contains_instant t b) before
     /\ contains_instant t a)
  \/ (Forall (fun b => ~ contains_instant t b) detected_actions
      /\ ((r = bm /\ Forall (fun b => bound <= distance t b) detected_actions)
          \/ exists before a after,
               detected_actions = before ++ a :: after /\ r = Some a
               /\ distance t a < bound
               /\ Forall (fun b => distance t a < distance t b) before
               /\ Forall (fun b => distance t a <= distance t b) after)).
Proof.
  cbv zeta. revert md bm.
  induction detected_actions as [|action rest IH]; intros md bm Hbound.
  { right. split; [constructor|]. left. split; [done | constructor]. }
  cbn [nearest_action].
  pose proof (contains_instant_code t action) as Hc.
  pose proof (distance_code t action) as Hd.
  destruct (Qleb _ t && Qleb t _).
  { left. exists [], action, rest. split; [done|]. split; [done|].
    split; [constructor | by apply Hc]. }
  assert (Hnc : ~ contains_instant t action) by (intros H; by apply Hc in H).
  set (dist := py_min _ _) in *.
  assert (Hupd : (match md with Some d => Qltb dist d | None => true end
                  && Qltb dist 30) = true
                 <-> dist < match md with Some d => d | None => 30 end).
  { rewrite andb_true_iff, Qltb_lt. destruct md as [d|].
    - rewrite Qltb_lt. split; [tauto | lra].
    - split; [tauto | done]. }
  destruct (_ && Qltb dist 30).
  - assert (Hlt : dist < match md with Some d => d | None => 30 end)
      by (by apply Hupd).
    destruct (IH (Some dist) (Some action) ltac:(cbv beta iota; lra))
      as [(before & a & after & -> & Hr & Hb & Ha)
         |[Hall [[Hr Hfar]|(before & a & after & -> & Hr & Hlt' & Hb & Ha)]]].
    + left. exists (action :: before), a, after.
      split; [done|]. split; [done|]. split; [by constructor | done].
    + right. split; [by constructor|]. right. exists [], action, rest.
      split; [done|]. split; [done|]. split; [lra|].
      split; [constructor|].
      eapply Forall_impl; [exact Hfar|]. intros b Hb. cbv beta in Hb. lra.
    + right. split; [by constructor|]. right.
      exists (action :: before), a, after.
      split; [done|]. split; [done|]. split; [lra|].
      split; [|done]. constructor; [lra | done].
  - assert (Hge : match md with Some d => d | None => 30 end <= dist).
    { destruct (Qlt_le_dec dist match md with Some d => d | None => 30 end)
        as [H|H]; [|done]. by apply Hupd in H. }
    destruct (IH md bm Hbound)
      as [(before & a & after & -> & Hr & Hb & Ha)
         |[Hall [[Hr Hfar]|(before & a & after & -> & Hr & Hlt' & Hb & Ha)]]].
    + left. exists (action :: before), a, after.
      split; [done|]. split; [done|]. split; [by constructor | done].
    + right. split; [by constructor|]. left. split; [done|].
      constructor; [lra | done].
    + right. split; [by constructor|]. right.
      exists (action :: before), a, after.
      split; [done|]. split; [done|]. split; [done|].
      split; [|done]. constructor; [lra | done].
Qed.

(** The action bound to an instant by the second loop. *)
Lemma nearest_action_bound_at (detected_actions : list DetectedAction.t)
    (t : Q) :
  bound_at t detected_actions (nearest_action detected_actions t t None None).
Proof.
  destruct (nearest_action_spec detected_actions t None None
              ltac:(cbv beta iota; lra))
    as [(before & a & after & Hl & -> & Hb & Ha)
       |[Hall [[-> Hfar]|(before & a & after & Hl & -> & Hlt & Hb & Ha)]]];
    cbn [bound_at].
  - exists before, after. split; [done|]. split; [done|]. by left.
  - rewrite Forall_forall in Hall, Hfar. apply Forall_forall.
    intros b Hb. split; [by apply Hall | by apply Hfar].
  - exists before, after. split; [done|]. rewrite Hl in Hall.
    apply Forall_app in Hall as [Hall1 Hall2].
    apply Forall_cons in Hall2 as [_ Hall2].
    split; [done|]. right. done.
Qed.

Lemma nearest_action_mem (detected_actions : list DetectedAction.t)
    (start_time end_time : Q) (md : option Q)
    (bm : option DetectedAction.t) (a : DetectedAction.t) :
  nearest_action detected_actions start_time end_time md bm = Some a ->
  bm = Some a \/ a ∈ detected_actions.
Proof.
  revert md bm. induction detected_actions as [|b l IH]; intros md bm;
    cbn [nearest_action]; [by left|].
  destruct (_ && _); [intros [= ->]; right; set_solver|].
  destruct (_ && _); intros H; apply IH in H as [H|H];
    [injection H as ->| | |]; set_solver.
Qed.

Lemma resolve_time_range_elem (detected_actions : list DetectedAction.t)
    (start_time end_time : Q) (a : DetectedAction.t) :
  resolve_time_range detected_actions start_time end_time = Some a ->
  a ∈ detected_actions.
Proof.
  unfold resolve_time_range.
  destruct (best_overlap_action _ _ _) as [b|] eqn:Hb.
  - apply best_overlap_action_elem in Hb.
    destruct (_ || _); [|by intros [= <-]].
    intros H. by apply nearest_action_mem in H as [[= <-]|H].
  - destruct (_ || _); [|done].
    intros H. by apply nearest_action_mem in H as [H|H].
Qed.

Lemma float_raise (number : text) (e : exn) :
  float number = Raise e -> e = ValueError number.
Proof.
  unfold float. destruct (span_digits number) as [ip rest].
  destruct rest as [|c fp].
  - case_bool_decide; [by intros [= <-] | done].
  - destruct (_ && _); [done | by intros [= <-]].
Qed.

(** The time range of a parsed line, resolved. *)
Lemma bind_time_range_parsed (n : Z) (llm_response : text) (g : Re.groups)
    (detected_actions : list DetectedAction.t) :
  Re.search true (step_pattern n) llm_response = Some g ->
  match g !! 2%nat with
  | None => bind_time_range (g !! 2%nat) detected_actions = Ok None
  | Some time_range =>
      match Re.search false time_pattern time_range with
      | None => bind_time_range (g !! 2%nat) detected_actions = Ok None
      | Some tm =>
          tm !! 2%nat = None
          /\ exists number,
               tm !! 1%nat = Some number
               /\ bind_time_range (g !! 2%nat) detected_actions
                  = match float number with
                    | Ok t => Ok (nearest_action detected_actions t t None None)
                    | Raise e => Raise e
                    end
      end
  end.
Proof.
  intros Hg. apply step_pattern_groups in Hg as (_ & Hrange & _).
  destruct (g !! 2%nat) as [tr|] eqn:Htr; [|done].
  destruct (Hrange tr eq_refl) as (Hne & Hdash & _).
  destruct tr as [|c cs]; [done|]. unfold bind_time_range.
  destruct (Re.search false time_pattern (c :: cs)) as [tm|] eqn:Htm; [|done].
  apply time_pattern_no_end in Htm as (Hend & number & Hnum & _); [|done].
  split; [done|]. exists number. split; [done|].
  rewrite Hnum. cbn [default from_option id].
  destruct (float number) as [t|e]; [|done].
  unfold mbind, result_bind. cbv beta iota.
  unfold text in Hend |- *. rewrite Hend.
  unfold resolve_time_range. by rewrite best_overlap_action_instant.
Qed.

Section MatcherExtraProofs.
Context {table : CaseTable}.

Lemma match_step_bound (llm_response : text)
    (detected_actions : list DetectedAction.t) (st : InstructionStep.t)
    (m : ActionMatch.t) (a : DetectedAction.t) :
  match_step llm_response detected_actions st = Ok m ->
  ActionMatch.detected_action m = Some a -> a ∈ detected_actions.
Proof.
  unfold match_step.
  destruct (Re.search true _ llm_response) as [g|] eqn:Hg.
  - cbv zeta. destruct (bool_decide _).
    + destruct (bind_time_range _ _) as [bm|] eqn:Hb; cbn; [|done].
      intros [= <-]. cbn. intros ->.
      unfold bind_time_range in Hb.
      destruct (g !! 2%nat) as [[|c cs]|]; try done.
      destruct (Re.search false time_pattern _) as [tm|]; [|done].
      destruct (float _) as [t|]; cbn in Hb; [|done].
      destruct (match tm !! 2%nat with Some (e :: es) => _ | _ => _ end)
        as [t'|]; cbn in Hb; [|done].
      injection Hb as Hb. by apply resolve_time_range_elem in Hb.
    + cbn. by intros [= <-].
  - pose proof (best_scoring_action_spec st detected_actions) as Hbest.
    destruct (best_scoring_action detected_actions st) as [bs bm].
    intros [= <-]. cbn. destruct (Qltb (1 # 4) bs); [|done].
    intros ->. destruct Hbest as (_ & _ & _ & i & Hi & _).
    by eapply list_elem_of_lookup_2.
Qed.

Lemma match_step_positive (llm_response : text)
    (detected_actions : list DetectedAction.t) (st : InstructionStep.t)
    (g : Re.groups) (m : ActionMatch.t) :
  Re.search true (step_pattern (InstructionStep.step_number st))
    llm_response = Some g ->
  match_step llm_response detected_actions st = Ok m ->
  ActionMatch.matched m = true ->
  binds_at_instant g detected_actions m.
Proof.
  intros Hg Hm Hpos.
  pose proof (bind_time_range_parsed _ _ _ detected_actions Hg) as Hb.
  unfold match_step in Hm. rewrite Hg in Hm. cbv zeta in Hm.
  destruct (bool_decide _); [|by injection Hm as <-].
  unfold binds_at_instant.
  destruct (g !! 2%nat) as [tr|].
  - destruct (Re.search false time_pattern tr) as [tm|].
    + destruct Hb as (Hend & number & Hnum & Hb). rewrite Hb in Hm.
      destruct (float number) as [t|] eqn:Ht; cbn in Hm; [|done].
      injection Hm as <-. cbn. split; [done|]. exists number, t.
      split; [done|]. split; [done|]. apply nearest_action_bound_at.
    + rewrite Hb in Hm. by injection Hm as <-.
  - rewrite Hb in Hm. by injection Hm as <-.
Qed.

Lemma match_step_verdict (llm_response : text)
    (detected_actions : list DetectedAction.t) (st : InstructionStep.t)
    (g : Re.groups) :
  Re.search true (step_pattern (InstructionStep.step_number st))
    llm_response = Some g ->
  exists verdict,
    g !! 1%nat = Some verdict
    /\ Re.upper verdict ∈ verdict_tokens
    /\ (forall m, match_step llm_response detected_actions st = Ok m ->
          (ActionMatch.matched m = true <-> Re.upper verdict ∈ positive_tokens))
    /\ (Re.upper verdict ∉ positive_tokens ->
        match_step llm_response detected_actions st
        = Ok (ActionMatch.mk (InstructionStep.step_number st) false None
                (comment_deviation g))).
Proof.
  intros Hg.
  destruct (step_pattern_groups _ _ _ Hg) as ((verdict & Hv & Htok) & _ & _).
  exists verdict. split; [done|]. split; [done|].
  unfold match_step, comment_deviation. rewrite Hg. cbv zeta.
  unfold text in Hv |- *. rewrite Hv. cbn [default from_option id].
  fold positive_tokens. split.
  - intros m. case_bool_decide as Hp.
    + destruct (bind_time_range _ _); cbn; [|done]. by intros [= <-].
    + cbn. intros [= <-]. cbn. split; [done | by intros ?].
  - intros Hneg. rewrite bool_decide_eq_false_2 by done. cbn.
    by destruct (g !! 3%nat) as [[|c cs]|].
Qed.

Lemma match_step_raise (llm_response : text)
    (detected_actions : list DetectedAction.t) (st : InstructionStep.t)
    (e : exn) :
  match_step llm_response detected_actions st = Raise e ->
  malformed_number llm_response st e.
Proof.
  unfold match_step, malformed_number.
  destruct (Re.search true _ llm_response) as [g|] eqn:Hg.
  - pose proof (bind_time_range_parsed _ _ _ detected_actions Hg) as Hb.
    cbv zeta. fold positive_tokens. case_bool_decide as Hp; [|done].
    destruct (g !! 2%nat) as [tr|] eqn:Htr; [|by rewrite Hb].
    destruct (Re.search false time_pattern tr) as [tm|] eqn:Htm;
      [|by rewrite Hb].
    destruct Hb as (_ & number & Hnum & ->).
    destruct (float number) as [t|e'] eqn:Hf; cbn; [done|].
    intros [= ->]. exists g, tr, tm, number.
    repeat split; try done. by apply float_raise.
  - by destruct (best_scoring_action _ _).
Qed.

Lemma fallback_outcome_threshold (st : InstructionStep.t)
    (detected_actions : list DetectedAction.t) (m : ActionMatch.t) :
  fallback_outcome st detected_actions m ->
  ActionMatch.matched m = reaches_threshold detected_actions st.
Proof.
  intros (best & Hall & Hbest & _ & Hm & _). unfold reaches_threshold.
  apply eq_true_iff_eq. rewrite Hm, existsb_exists. split.
  - intros Hlt. destruct Hbest as [->|(a & Ha & Hsc)]; [lra|].
    exists a. split; [by apply list_elem_of_In|].
    apply Qltb_lt. by rewrite Hsc.
  - intros (a & Ha & Hlt). apply Qltb_lt in Hlt.
    rewrite Forall_forall in Hall.
    apply list_elem_of_In, Hall in Ha. lra.
Qed.

Lemma match_unparsed_missing (llm_response : text)
    (detected_actions : list DetectedAction.t)
    (steps : list InstructionStep.t) :
  Forall (unparsed llm_response) steps ->
  exists matches,
    mapM (match_step llm_response detected_actions) steps = Ok matches
    /\ Forall2 (fun st m => fallback_outcome st detected_actions m)
         steps matches
    /\ missing_steps matches
       = map InstructionStep.step_number
           (filter (fun st => reaches_threshold detected_actions st = false)
              steps).
Proof.
  induction 1 as [|st steps Hst _ (matches & Hrun & Hall & Hmiss)].
  - by exists [].
  - destruct (match_step_unparsed _ detected_actions _ Hst) as (m & Hm & Hout).
    exists (m :: matches). cbn [mapM]. rewrite Hm, Hrun. split; [done|].
    split; [by constructor|].
    pose proof (fallback_outcome_threshold _ _ _ Hout) as Hthr.
    destruct Hout as (_ & _ & _ & Hn & _).
    unfold missing_steps in *. rewrite !filter_cons.
    destruct (decide (ActionMatch.matched m = false)) as [Hf|Hf];
      destruct (decide (reaches_threshold detected_actions st = false))
        as [Hr|Hr]; try congruence; cbn [map]; congruence.
Qed.

End MatcherExtraProofs.

(** ** More on the merger *)

Section MergerExtraProofs.
Context {table : CaseTable}.

Lemma walk_length (actions : list DetectedAction.t)
    (current : DetectedAction.t) :
  (1 <= length (merge_walk current actions) <= S (length actions))%nat.
Proof.
  revert current. induction actions as [|a rest IH]; intros current;
    cbn [merge_walk length]; [lia|].
  destruct (absorbs current a); cbn [length].
  - specialize (IH (extend_to current a)). lia.
  - specialize (IH a). lia.
Qed.

Lemma walk_head (actions : list DetectedAction.t)
    (current : DetectedAction.t) :
  exists first rest,
    merge_walk current actions = first :: rest
    /\ opening first = opening current.
Proof.
  revert current. induction actions as [|a rest IH]; intros current;
    cbn [merge_walk]; [by eexists _, _|].
  destruct (absorbs current a); [|by eexists _, _].
  destruct (IH (extend_to current a)) as (f & r & -> & Hf). by exists f, r.
Qed.

Lemma absorbs_opening (current a b : DetectedAction.t) :
  opening a = opening b -> absorbs current a = absorbs current b.
Proof. unfold opening, absorbs. by intros [= -> ->]. Qed.

Lemma walk_settled (actions : list DetectedAction.t)
    (current : DetectedAction.t) :
  settled (merge_walk current actions).
Proof.
  revert current. induction actions as [|a rest IH]; intros current;
    cbn [merge_walk]; [done|].
  destruct (absorbs current a) eqn:Hab; [apply IH|].
  specialize (IH a). destruct (walk_head rest a) as (f & r & Hw & Hf).
  rewrite Hw in *. cbn [settled]. split; [|done].
  by rewrite (absorbs_opening current f a).
Qed.

Lemma settled_walk (actions : list DetectedAction.t)
    (current : DetectedAction.t) :
  settled (current :: actions) -> merge_walk current actions = current :: actions.
Proof.
  revert current. induction actions as [|a rest IH]; intros current; [done|].
  cbn [settled merge_walk]. intros [-> Hs]. f_equal. by apply IH.
Qed.

Lemma walk_fixed (actions : list DetectedAction.t)
    (current : DetectedAction.t) :
  merge_walk current actions = current :: actions -> settled (current :: actions).
Proof.
  revert current. induction actions as [|a rest IH]; intros current; [done|].
  cbn [merge_walk]. destruct (absorbs current a) eqn:Hab.
  - intros H. apply (f_equal length) in H. cbn [length] in H.
    pose proof (walk_length rest (extend_to current a)). lia.
  - intros [= H]. split; [done | by apply IH].
Qed.

Lemma walk_well_formed (actions : list DetectedAction.t)
    (current : DetectedAction.t) :
  ordered_by_start (current :: actions) ->
  Forall well_formed (current :: actions) ->
  Forall well_formed (merge_walk current actions).
Proof.
  unfold ordered_by_start.
  revert current. induction actions as [|a rest IH]; intros current;
    cbn [merge_walk]; [done|].
  cbn [map]. rewrite !StronglySorted_cons, !Forall_cons.
  intros ((Hca & Hcr) & Har & Hr) (Hc & Ha & Hrest).
  destruct (absorbs current a).
  - apply IH.
    + cbn [map]. rewrite StronglySorted_cons. done.
    + constructor; [|done]. unfold well_formed in *. cbn. lra.
  - constructor; [done|]. apply IH.
    + cbn [map]. rewrite StronglySorted_cons. done.
    + by constructor.
Qed.

Lemma merge_length (actions : list DetectedAction.t) :
  (length (_merge_similar_actions actions) <= length actions)%nat
  /\ (actions <> [] -> _merge_similar_actions actions <> []).
Proof.
  rewrite merge_refines_walk. destruct actions as [|first rest]; [done|].
  cbn [merge_spec length]. pose proof (walk_length rest first) as Hl.
  split; [lia|]. intros _ H. rewrite H in Hl. cbn in Hl. lia.
Qed.

Lemma merge_ordered (actions : list DetectedAction.t) :
  ordered_by_start actions ->
  ordered_by_start (_merge_similar_actions actions).
Proof.
  intros Hord. unfold ordered_by_start in *.
  eapply sublist_strongly_sorted; [|exact Hord].
  assert (Hopen : map opening (_merge_similar_actions actions)
                    `sublist_of` map opening actions).
  { rewrite merge_refines_walk.
    destruct actions as [|first rest]; [done | apply walk_openings]. }
  apply (fmap_sublist snd) in Hopen.
  by rewrite <- !list_fmap_compose in Hopen.
Qed.

Lemma merge_well_formed (actions : list DetectedAction.t) :
  ordered_by_start actions -> Forall well_formed actions ->
  Forall well_formed (_merge_similar_actions actions).
Proof.
  rewrite merge_refines_walk. destruct actions as [|first rest]; [done|].
  apply walk_well_formed.
Qed.

Lemma merge_settled (actions : list DetectedAction.t) :
  settled (_merge_similar_actions actions).
Proof.
  rewrite merge_refines_walk. destruct actions as [|first rest]; [done|].
  apply walk_settled.
Qed.

Lemma merge_fixed (actions : list DetectedAction.t) :
  _merge_similar_actions actions = actions <-> settled actions.
Proof.
  rewrite merge_refines_walk. destruct actions as [|first rest]; [done|].
  split; [apply walk_fixed | apply settled_walk].
Qed.

End MergerExtraProofs.

(** ** Batches of frames *)

Lemma frames_ind3 (P : list Frame.t -> Prop) :
  P [] -> (forall a, P [a]) -> (forall a b, P [a; b]) ->
  (forall a b c l, P l -> P (a :: b :: c :: l)) ->
  forall l, P l.
Proof.
  intros H0 H1 H2 H3 l.
  assert (H : P l /\ (forall a, P (a :: l)) /\ (forall a b, P (a :: b :: l)));
    [|by destruct H].
  induction l as [|x l (IH0 & IH1 & IH2)]; [done|].
  split; [apply IH1|]. split; [intros a; apply IH2|]. intros a b. by apply H3.
Qed.

Lemma range3_from_done (fuel i n : nat) :
  (n <= i)%nat -> range3_from fuel i n = [].
Proof.
  intros H. destruct fuel; [done|]. cbn [range3_from].
  by rewrite bool_decide_eq_false_2 by lia.
Qed.

Section VideoSequenceProofs.
Context {table : CaseTable}.

Lemma detect_actions_from (replies : nat -> text) (fuel : nat)
    (pre l : list Frame.t) (k : nat) :
  (length l <= fuel)%nat ->
  omap id
    (imap (fun j i =>
             batch_action (replies (k + j)%nat) (take 3 (drop i (pre ++ l))))
       (range3_from fuel (length pre) (length (pre ++ l))))
  = batch_actions replies k l.
Proof.
  revert pre l k. induction fuel as [|fuel IH]; intros pre l k Hl.
  { destruct l; [done | cbn in Hl; lia]. }
  destruct l as [|a l1].
  { by rewrite range3_from_done by (rewrite app_nil_r; lia). }
  cbn [range3_from].
  rewrite bool_decide_eq_true_2 by (rewrite length_app; cbn; lia).
  rewrite imap_cons. cbn [omap]. rewrite drop_app_length, Nat.add_0_r.
  destruct l1 as [|b [|c l']].
  - cbn. by rewrite range3_from_done by (rewrite length_app; cbn; lia).
  - cbn. by rewrite range3_from_done by (rewrite length_app; cbn; lia).
  - replace (pre ++ a :: b :: c :: l') with ((pre ++ [a; b; c]) ++ l')
      by (by rewrite <- app_assoc).
    replace (length pre + 3)%nat with (length (pre ++ [a; b; c]))
      by (rewrite length_app; cbn; lia).
    cbn [batch_actions].
    rewrite <- (IH (pre ++ [a; b; c]) l' (S k)) by (cbn in Hl; lia).
    cbn. f_equal. f_equal. apply imap_ext. intros j i _. cbn.
    by replace (k + S j)%nat with (S (k + j)) by lia.
Qed.

Lemma detect_actions_batches (replies : nat -> text) (frames : list Frame.t) :
  detect_actions replies frames = batch_actions replies 0 frames.
Proof.
  unfold detect_actions, range3.
  by rewrite <- (detect_actions_from replies (length frames) [] frames 0).
Qed.

Lemma batch_actions_length (replies : nat -> text) (frames : list Frame.t)
    (k : nat) :
  length (batch_actions replies k frames) = total_batches frames.
Proof.
  unfold total_batches. revert k.
  induction frames as [|a|a b|a b c l IH] using frames_ind3; intros k;
    try done.
  cbn [batch_actions length]. rewrite IH.
  replace (S (S (S (length l))) + 2)%nat with (length l + 2 + 1 * 3)%nat by lia.
  rewrite Nat.div_add by lia. lia.
Qed.

(** Every batch yields an action. *)
Lemma detect_actions_length (replies : nat -> text) (frames : list Frame.t) :
  length (detect_actions replies frames) = total_batches frames.
Proof. rewrite detect_actions_batches. apply batch_actions_length. Qed.

Lemma batch_actions_stamps (replies : nat -> text) (frames : list Frame.t)
    (k : nat) :
  Forall (fun a =>
            DetectedAction.timestamp_start a ∈ map Frame.timestamp frames)
    (batch_actions replies k frames).
Proof.
  revert k.
  induction frames as [|a|a b|a b c l IH] using frames_ind3; intros k;
    cbn [batch_actions map]; repeat constructor.
  eapply Forall_impl; [apply IH|]. cbn. intros x Hx. by do 3 constructor.
Qed.

Lemma batch_actions_ordered (replies : nat -> text) (frames : list Frame.t)
    (k : nat) :
  frames_ordered frames ->
  ordered_by_start (batch_actions replies k frames)
  /\ Forall well_formed (batch_actions replies k frames).
Proof.
  unfold frames_ordered, ordered_by_start, well_formed. revert k.
  induction frames as [|a|a b|a b c l IH] using frames_ind3; intros k Hord;
    cbn [batch_actions map] in *.
  - done.
  - split; repeat constructor. cbn. lra.
  - rewrite !StronglySorted_cons, !Forall_cons in Hord.
    destruct Hord as ((Hab & _) & _). split; repeat constructor. by cbn.
  - rewrite !StronglySorted_cons, !Forall_cons in Hord.
    destruct Hord as ((Hab & Hac & Hal) & (Hbc & Hbl) & Hcl & Hl).
    destruct (IH (S k) Hl) as [Ho Hw]. split.
    + apply StronglySorted_cons. split; [|done].
      pose proof (batch_actions_stamps replies l (S k)) as Hst.
      rewrite Forall_forall in Hst. rewrite Forall_forall in Hal.
      rewrite Forall_forall.
      intros x Hx. apply list_elem_of_fmap in Hx as (act & -> & Hact).
      by apply Hal, Hst.
    + constructor; [by cbn | done].
Qed.

Lemma batch_actions_span (replies : nat -> text) (frames : list Frame.t)
    (k : nat) :
  head (map DetectedAction.timestamp_start (batch_actions replies k frames))
  = head (map Frame.timestamp frames)
  /\ last (map DetectedAction.timestamp_end (batch_actions replies k frames))
     = last (map Frame.timestamp frames).
Proof.
  revert k.
  induction frames as [|a|a b|a b c l IH] using frames_ind3; intros k;
    try done.
  split; [done|]. cbn [batch_actions map].
  destruct (IH (S k)) as [_ Hlast]. rewrite !last_cons, Hlast.
  destruct l as [|d l]; [done|]. cbn [map]. rewrite !last_cons.
  by destruct (last (map Frame.timestamp l)).
Qed.

Lemma merge_span (actions : list DetectedAction.t) :
  head (map DetectedAction.timestamp_start (_merge_similar_actions actions))
  = head (map DetectedAction.timestamp_start actions)
  /\ last (map DetectedAction.timestamp_end (_merge_similar_actions actions))
     = last (map DetectedAction.timestamp_end actions).
Proof.
  rewrite merge_refines_walk. destruct actions as [|first rest]; [done|].
  cbn [merge_spec]. split; [|apply walk_last_end].
  destruct (walk_head rest first) as (f & r & -> & Hf).
  cbn. by injection Hf as _ ->.
Qed.

End VideoSequenceProofs.

(** ** More on the live tracker *)

Lemma has_status_unique (a b : string) (result : gmap string pyval) :
  has_status a result -> has_status b result -> utf8 a = utf8 b.
Proof. unfold has_status. intros -> [= H]. done. Qed.

Ltac status_clash :=
  match goal with
  | H1 : has_status ?a ?r, H2 : has_status ?b ?r |- _ =>
      pose proof (has_status_unique a b r H1 H2) as Hclash;
      vm_compute in Hclash; discriminate Hclash
  end.

Section TrackerExtraProofs.
Context {table : CaseTable}.

Lemma scan_later_steps_sound (steps : list InstructionStep.t) (i : nat)
    (current : nat) (observed : text) (st : InstructionStep.t) :
  scan_later_steps i steps current observed = Some st ->
  exists k : nat,
    (current < i + k)%nat /\ steps !! k = Some st /\ observed_as observed st.
Proof.
  revert i. induction steps as [|s0 rest IH]; intros i; cbn [scan_later_steps];
    [done|].
  case_bool_decide as Hi.
  - intros H. apply IH in H as (k & Hk & Hl & Ho).
    exists (S k). split; [lia | done].
  - destruct (Qltb _ _) eqn:Hs.
    + intros [= ->]. exists 0%nat. split; [lia|]. split; [done|].
      by apply Qltb_lt.
    + intros H. apply IH in H as (k & Hk & Hl & Ho).
      exists (S k). split; [lia | done].
Qed.

Lemma scan_later_steps_decides (self : LiveAnalyzer.t) (observed : text) :
  match scan_later_steps 0 (steps_of self) (current_step self) observed with
  | Some st => later_step_observed self observed
  | None => ~ later_step_observed self observed
  end.
Proof.
  destruct (scan_later_steps _ _ _ _) as [st|] eqn:Hscan.
  - apply scan_later_steps_sound in Hscan as (k & Hk & Hl & Ho).
    exists k, st. split; [lia | done].
  - intros (j & st & Hj & Hl & Ho).
    destruct (scan_later_steps_finds (steps_of self) 0 (current_step self)
                observed j st) as (k & d & Hs & _); [lia | done | done |].
    congruence.
Qed.

(** The four ways a call can go. *)
Lemma analyze_frame_cases (self : LiveAnalyzer.t) (description : text)
    (timestamp : Q) :
  let self' := (analyze_frame self description timestamp).1 in
  let result := (analyze_frame self description timestamp).2 in
  analysis_interval self' = analysis_interval self
  /\ ((steps_of self !! current_step self = None
       /\ has_status "completed" result
       /\ current_step self' = current_step self
       /\ completed_steps self' = completed_steps self
       /\ warnings self' = warnings self)
      \/ (exists expected,
            steps_of self !! current_step self = Some expected
            /\ observed_as description expected
            /\ has_status "step_completed" result
            /\ current_step self' = S (current_step self)
            /\ completed_steps self'
               = completed_steps self
                 ++ [InstructionStep.step_number expected]
            /\ warnings self' = warnings self)
      \/ (exists expected detected,
            steps_of self !! current_step self = Some expected
            /\ ~ observed_as description expected
            /\ later_step_observed self description
            /\ has_status "warning" result
            /\ current_step self' = current_step self
            /\ completed_steps self' = completed_steps self
            /\ warnings self'
               = warnings self ++ [out_of_order_warning detected expected])
      \/ (exists expected,
            steps_of self !! current_step self = Some expected
            /\ ~ observed_as description expected
            /\ ~ later_step_observed self description
            /\ has_status "in_progress" result
            /\ current_step self' = current_step self
            /\ completed_steps self' = completed_steps self
            /\ warnings self' = warnings self)).
Proof.
  pose proof (scan_later_steps_decides self description) as Hscan.
  unfold analyze_frame, _check_instruction_compliance, observed_as,
    steps_of in *.
  cbn [instruction current_action current_step completed_steps warnings
       action_history last_analysis_time analysis_interval
       observation DetectedAction.description].
  destruct (Instruction.steps (instruction self) !! current_step self)
    as [expected|] eqn:Hexp.
  - destruct (Qltb (3 # 10) _) eqn:Hs.
    + apply Qltb_lt in Hs. split; [done|]. right; left.
      exists expected. repeat split; done.
    + apply Qltb_ge in Hs.
      assert (~ 3 # 10 < _calculate_match_score
                           (InstructionStep.description expected) description)
        by (intros ?; lra).
      destruct (scan_later_steps _ _ _ _) as [detected|].
      * split; [done|]. right; right; left.
        exists expected, detected. repeat split; done.
      * split; [done|]. right; right; right.
        exists expected. repeat split; done.
  - split; [done|]. left. repeat split; done.
Qed.

Lemma analyze_frame_status (self : LiveAnalyzer.t) (description : text)
    (timestamp : Q) :
  status_decided self description
    (analyze_frame self description timestamp).2.
Proof.
  destruct (analyze_frame_cases self description timestamp)
    as (_ & [(He & Hst & _)|[(e & He & Ho & Hst & _)
            |[(e & d & He & Ho & Hl & Hst & _)|(e & He & Ho & Hl & Hst & _)]]]);
    unfold status_decided; rewrite <- lookup_ge_None, He.
  - split; [done|]. split; [split; [intros; status_clash | by intros (?&?&?)]|].
    split; [split; [intros; status_clash | by intros (?&?&?)]|].
    split; [split; [intros; status_clash | by intros (?&?&?)]|].
    intros ?; status_clash.
  - split; [split; [intros; status_clash | done]|].
    split; [split; [by exists e | done]|].
    split; [split; [intros; status_clash | by intros (?&[= <-]&?&?)]|].
    split; [split; [intros; status_clash | by intros (?&[= <-]&?&?)]|].
    intros ?; status_clash.
  - split; [split; [intros; status_clash | done]|].
    split; [split; [intros; status_clash | by intros (?&[= <-]&?)]|].
    split; [split; [by exists e | done]|].
    split; [split; [intros; status_clash | by intros (?&[= <-]&?&?)]|].
    intros ?; status_clash.
  - split; [split; [intros; status_clash | done]|].
    split; [split; [intros; status_clash | by intros (?&[= <-]&?)]|].
    split; [split; [intros; status_clash | by intros (?&[= <-]&?&?)]|].
    split; [split; [by exists e | done]|].
    intros ?; status_clash.
Qed.

Lemma analyze_frame_order (self : LiveAnalyzer.t) (description : text)
    (timestamp : Q) :
  in_checklist_order self ->
  in_checklist_order (analyze_frame self description timestamp).1.
Proof.
  pose proof (analyze_frame_effect self description timestamp)
    as (Hi & _).
  destruct (analyze_frame_cases self description timestamp)
    as (_ & [(He & _ & Hc & Hd & _)|[(e & He & _ & _ & Hc & Hd & _)
            |[(e & d & He & _ & _ & _ & Hc & Hd & _)
             |(e & He & _ & _ & _ & Hc & Hd & _)]]]);
    unfold in_checklist_order, steps_of in *; rewrite Hi, Hc, Hd;
    try done.
  intros ->. by rewrite (take_S_r _ _ _ He), map_app.
Qed.

Lemma run_order (frames : list (text * Q)) (self : LiveAnalyzer.t) :
  in_checklist_order self -> in_checklist_order (run self frames).1.
Proof.
  revert self. induction frames as [|[description timestamp] rest IH];
    intros self Hord; cbn [run]; [done|].
  pose proof (analyze_frame_order self description timestamp Hord) as H1.
  destruct (analyze_frame self description timestamp) as [self1 result].
  specialize (IH self1 H1). by destruct (run self1 rest).
Qed.

(** The cursor and the logs over a session, counted by status. *)
Lemma run_counts (frames : list (text * Q)) (self : LiveAnalyzer.t) :
  current_step (run self frames).1
  = (current_step self + count_status "step_completed" (run self frames).2)%nat
  /\ length (warnings (run self frames).1)
     = (length (warnings self) + count_status "warning" (run self frames).2)%nat
  /\ warnings self `prefix_of` warnings (run self frames).1
  /\ length (run self frames).2 = length frames.
Proof.
  revert self. induction frames as [|[description timestamp] rest IH];
    intros self; cbn [run].
  { cbn. split; [lia|]. split; [lia | done]. }
  pose proof (analyze_frame_cases self description timestamp) as (_ & Hcase).
  destruct (analyze_frame self description timestamp) as [self1 result].
  specialize (IH self1). destruct (run self1 rest) as [self2 results].
  cbn [fst snd] in *. destruct IH as (Hc & Hw & Hp & Hl).
  unfold count_status in *. rewrite !filter_cons. cbn [length]. rewrite Hl.
  destruct Hcase as [(_ & Hst & Hc1 & _ & Hw1)|[(e & _ & _ & Hst & Hc1 & _ & Hw1)
            |[(e & d & _ & _ & _ & Hst & Hc1 & _ & Hw1)
             |(e & _ & _ & _ & Hst & Hc1 & _ & Hw1)]]];
    rewrite Hc1 in Hc; rewrite Hw1 in Hw, Hp;
    repeat case_decide; try status_clash; try contradiction; cbn [length];
    rewrite ?length_app in Hw; cbn [length] in Hw;
    (split; [lia|]); (split; [lia|]); (split; [|done]); try done.
  by eapply prefix_app_l.
Qed.

End TrackerExtraProofs.

(** ** More on the similarity score *)

(** A quotient of two sizes, the divisor not zero. *)
Lemma ratio_normal (i n : nat) :
  inject_Z (Z.of_nat i) / inject_Z (Z.of_nat (S n))
  == Z.of_nat i # Pos.of_succ_nat n.
Proof.
  unfold Qeq, Qdiv, Qmult, Qinv, inject_Z. simpl. lia.
Qed.

Lemma ratio_facts (i u : nat) :
  (0 < u)%nat -> (i <= u)%nat ->
  let q := inject_Z (Z.of_nat i) / inject_Z (Z.of_nat u) in
  0 <= q <= 1
  /\ (q == 1 <-> i = u) /\ (q == 0 <-> i = 0%nat)
  /\ (1 # 2 < q <-> (u < 2 * i)%nat).
Proof.
  intros Hu Hi. destruct u as [|n]; [lia|]. cbv zeta.
  rewrite ratio_normal. unfold Qle, Qlt, Qeq. cbn [Qnum Qden].
  rewrite !Zpos_P_of_succ_nat. repeat split; lia.
Qed.

Section ScoreExtraProofs.
Context {table : CaseTable}.

Lemma words_inter_union (a b : text) :
  word_set a ∩ word_set b ⊆ word_set a ∪ word_set b.
Proof. etrans; [apply intersection_subseteq_l | apply union_subseteq_l]. Qed.

Lemma words_inter_empty (a b : text) :
  word_set a = ∅ \/ word_set b = ∅ -> word_set a ∩ word_set b = ∅.
Proof.
  intros [->| ->]; [apply (left_absorb_L _ _) | apply (right_absorb_L _ _)].
Qed.

Lemma score_cases (a b : text) :
  ((word_set a = ∅ \/ word_set b = ∅) /\ _calculate_match_score a b = 0)
  \/ (word_set a <> ∅ /\ word_set b <> ∅
      /\ (0 < size (word_set a ∪ word_set b))%nat
      /\ (size (word_set a ∩ word_set b)
          <= size (word_set a ∪ word_set b))%nat
      /\ _calculate_match_score a b
         = inject_Z (Z.of_nat (size (word_set a ∩ word_set b)))
           / inject_Z (Z.of_nat (size (word_set a ∪ word_set b)))).
Proof.
  unfold _calculate_match_score. cbv zeta.
  destruct (decide (word_set a = ∅)) as [Ha|Ha].
  { left. rewrite bool_decide_eq_true_2 by done. auto. }
  destruct (decide (word_set b = ∅)) as [Hb|Hb].
  { left. rewrite (bool_decide_eq_true_2 (word_set b = ∅)) by done.
    rewrite orb_true_r. auto. }
  right. rewrite !bool_decide_eq_false_2 by done. cbn [orb].
  split; [done|]. split; [done|]. split; [|split; [|done]].
  - assert (size (word_set a ∪ word_set b) <> 0%nat); [|lia].
    rewrite size_non_empty_iff. set_solver.
  - apply subseteq_size, words_inter_union.
Qed.

Lemma score_range (a b : text) : 0 <= _calculate_match_score a b <= 1.
Proof.
  destruct (score_cases a b) as [[_ ->]|(_ & _ & Hu & Hi & ->)]; [lra|].
  by apply ratio_facts.
Qed.

Lemma score_one (a b : text) :
  _calculate_match_score a b == 1
  <-> word_set a = word_set b /\ word_set a <> ∅.
Proof.
  destruct (score_cases a b) as [[He ->]|(Ha & Hb & Hu & Hi & ->)].
  - split; [intros H; lra|]. intros [Hab Hne]. destruct He; congruence.
  - destruct (ratio_facts _ _ Hu Hi) as (_ & -> & _). split.
    + intros Hsize. split; [|done].
      assert (Heq : word_set a ∩ word_set b = word_set a ∪ word_set b).
      { apply set_subseteq_size_eq; [apply words_inter_union | lia]. }
      apply set_eq. intros x. split; intros Hx.
      * assert (Hu' : x ∈ word_set a ∪ word_set b)
          by (apply elem_of_union; by left).
        rewrite <- Heq in Hu'. by apply elem_of_intersection in Hu' as [_ ?].
      * assert (Hu' : x ∈ word_set a ∪ word_set b)
          by (apply elem_of_union; by right).
        rewrite <- Heq in Hu'. by apply elem_of_intersection in Hu' as [? _].
    + intros [Hab _]. by rewrite Hab, (idemp_L (∩)), (idemp_L (∪)).
Qed.

Lemma score_zero (a b : text) :
  _calculate_match_score a b == 0 <-> word_set a ∩ word_set b = ∅.
Proof.
  destruct (score_cases a b) as [[He ->]|(Ha & Hb & Hu & Hi & ->)].
  - split; [|done]. intros _. by apply words_inter_empty.
  - destruct (ratio_facts _ _ Hu Hi) as (_ & _ & -> & _).
    rewrite size_empty_iff. by unfold_leibniz.
Qed.

Lemma similar_sym (a b : text) :
  _are_similar_descriptions a b = _are_similar_descriptions b a.
Proof. by rewrite !similar_is_score, score_sym. Qed.

Lemma similar_sizes (a b : text) :
  _are_similar_descriptions a b = true
  <-> (size (word_set a ∪ word_set b)
       < 2 * size (word_set a ∩ word_set b))%nat.
Proof.
  rewrite similar_is_score, Qltb_lt.
  destruct (score_cases a b) as [[He ->]|(Ha & Hb & Hu & Hi & ->)].
  - split; [intros H; lra|]. intros H. exfalso.
    assert (size (word_set a ∩ word_set b) = 0%nat); [|lia].
    by rewrite words_inter_empty.
  - by destruct (ratio_facts _ _ Hu Hi) as (_ & _ & _ & ->).
Qed.

End ScoreExtraProofs.

(** ** Sessions fed with the checklist itself *)

Section OwnDescriptions.
Context {table : CaseTable}.

Lemma run_own_descriptions (todo : list InstructionStep.t)
    (times : list Q) (self : LiveAnalyzer.t)
    (finished : list InstructionStep.t) :
  steps_of self = finished ++ todo ->
  current_step self = length finished ->
  length times = length todo ->
  Forall (fun st => split (lower (InstructionStep.description st)) <> [])
    todo ->
  let session :=
    run self (zip (map InstructionStep.description todo) times) in
  current_step session.1 = length (steps_of self)
  /\ completed_steps session.1
     = completed_steps self ++ map InstructionStep.step_number todo
  /\ Forall (has_status "step_completed") session.2.
Proof.
  revert times self finished.
  induction todo as [|st todo IH]; intros times self finished Hsteps Hcur Hlen Htok.
  { cbn. rewrite Hsteps, !app_nil_r. done. }
  destruct times as [|t times]; [done|]. cbn [map zip zip_with run].
  apply Forall_cons in Htok as [Hst Htok].
  assert (Hexp : steps_of self !! current_step self = Some st).
  { by rewrite Hsteps, Hcur, list_lookup_middle. }
  assert (Hobs : observed_as (InstructionStep.description st) st).
  { unfold observed_as. pose proof (score_self _ Hst) as H1. lra. }
  pose proof (analyze_frame_effect self (InstructionStep.description st) t)
    as (Hi & _).
  destruct (analyze_frame_cases self (InstructionStep.description st) t)
    as (_ & [(He & _)|[(e & He & _ & Hstat & Hc & Hd & _)
            |[(e & d & He & Hn & _)|(e & He & Hn & _)]]]);
    rewrite Hexp in He; try done; injection He as <-; try done.
  destruct (analyze_frame self (InstructionStep.description st) t)
    as [self1 result]. cbn [fst snd] in *.
  assert (Hsteps1 : steps_of self1 = (finished ++ [st]) ++ todo).
  { unfold steps_of in *. by rewrite Hi, Hsteps, <- app_assoc. }
  specialize (IH times self1 (finished ++ [st]) Hsteps1).
  destruct IH as (Hc' & Hd' & Hall).
  { rewrite Hc, Hcur, length_app. cbn. lia. }
  { cbn in Hlen. lia. }
  { done. }
  fold (zip (map InstructionStep.description todo) times).
  destruct (run self1 _) as [self2 results]. cbn [fst snd] in *.
  split; [|split].
  - rewrite Hc'. unfold steps_of. by rewrite Hi.
  - by rewrite Hd', Hd, <- app_assoc.
  - by constructor.
Qed.

End OwnDescriptions.

(** ** The squat counter *)

Section SquatProofs.
Import SquatsCounter.
Context {table : UpperTable}.

Lemma starts_with_prefix (n1 n2 hay : text) :
  starts_with (n1 ++ n2) hay = true -> starts_with n1 hay = true.
Proof.
  revert hay. induction n1 as [|c n1 IH]; intros hay; [done|].
  destruct hay as [|x hay]; [done|]. cbn [app starts_with].
  rewrite !andb_true_iff. intros [? ?]. auto.
Qed.

Lemma contains_prefix (n1 n2 hay : text) :
  contains (n1 ++ n2) hay = true -> contains n1 hay = true.
Proof.
  induction hay as [|x hay IH]; cbn [contains]; rewrite !orb_true_iff.
  - intros [H|H]; [|done]. left. by eapply starts_with_prefix.
  - intros [H|H]; [left; by eapply starts_with_prefix | right; auto].
Qed.

Lemma analyze_frame_count (self : SquatsCounter.t) (content : text)
    (timestamp : Q) :
  let self' := (SquatsCounter.analyze_frame self content timestamp).1 in
  SquatsCounter.current_state self' = _detect_squat_state content
  /\ SquatsCounter.squat_count self'
     = (SquatsCounter.squat_count self
        + stand_ups [SquatsCounter.current_state self;
                     _detect_squat_state content])%nat
  /\ SquatsCounter.last_analysis_time self' = timestamp
  /\ SquatsCounter.analysis_interval self'
     = SquatsCounter.analysis_interval self.
Proof.
  cbn. split; [done|]. split; [|done].
  destruct (bool_decide _ && bool_decide _); lia.
Qed.

Lemma run_count (frames : list (text * Q)) (self : SquatsCounter.t) :
  let states := map (fun f => _detect_squat_state f.1) frames in
  SquatsCounter.squat_count (SquatsCounter.run self frames)
  = (SquatsCounter.squat_count self
     + stand_ups (SquatsCounter.current_state self :: states))%nat
  /\ Some (SquatsCounter.current_state (SquatsCounter.run self frames))
     = last (SquatsCounter.current_state self :: states).
Proof.
  revert self. induction frames as [|[content timestamp] rest IH];
    intros self; cbn [SquatsCounter.run map].
  { cbn. split; [lia | done]. }
  destruct (analyze_frame_count self content timestamp) as (Hs & Hc & _).
  destruct (IH (SquatsCounter.analyze_frame self content timestamp).1)
    as [Hc' Hl'].
  cbn [fst] in *. rewrite Hc', Hl', Hs, Hc. split.
  - cbn [stand_ups]. lia.
  - by rewrite last_cons_cons.
Qed.

Lemma stand_ups_bound (s : SquatState) (states : list SquatState) :
  (2 * stand_ups (s :: states)
   <= length states + (if bool_decide (s = SQUATTING) then 1 else 0))%nat.
Proof.
  revert s. induction states as [|s' states IH]; intros s; [cbn; lia|].
  specialize (IH s'). cbn [length].
  change (stand_ups (s :: s' :: states))
    with ((if bool_decide (s = SQUATTING) && bool_decide (s' = STANDING)
           then 1 else 0) + stand_ups (s' :: states))%nat.
  set (k := stand_ups (s' :: states)) in *. clearbody k.
  repeat case_bool_decide; subst; cbn [andb]; first [lia | congruence].
Qed.

End SquatProofs.

(** * Further properties of the code *)

(** X1: the score of any two texts lies between 0 and 1. *)
Theorem score_between_zero_and_one {table : CaseTable} (a b : text) :
  0 <= _calculate_match_score a b <= 1.
Proof. apply score_range. Qed.

(** X2: the score is 1 exactly when the two texts have the same
    non-empty set of lower-cased words, and 0 exactly when they share no
    word. *)
Theorem score_extremes {table : CaseTable} (a b : text) :
  (_calculate_match_score a b == 1
   <-> word_set a = word_set b /\ word_set a <> ∅)
  /\ (_calculate_match_score a b == 0 <-> word_set a ∩ word_set b = ∅).
Proof. split; [apply score_one | apply score_zero]. Qed.

(** X3: the similarity test of the merger, coded apart from the score,
    agrees with it: two descriptions are similar exactly when their
    score exceeds one half, that is when the shared words outnumber
    half of all their words; the test is symmetric. *)
Theorem similarity_test_is_score_above_half {table : CaseTable}
    (desc1 desc2 : text) :
  (_are_similar_descriptions desc1 desc2 = true
   <-> 1 # 2 < _calculate_match_score desc1 desc2)
  /\ (_are_similar_descriptions desc1 desc2 = true
      <-> (size (word_set desc1 ∪ word_set desc2)
           < 2 * size (word_set desc1 ∩ word_set desc2))%nat)
  /\ _are_similar_descriptions desc1 desc2
     = _are_similar_descriptions desc2 desc1.
Proof.
  split; [by rewrite similar_is_score, Qltb_lt|].
  split; [apply similar_sizes | apply similar_sym].
Qed.

(** X4: merging is idempotent: merging a merged list changes nothing. *)
Theorem merge_is_idempotent {table : CaseTable}
    (actions : list DetectedAction.t) :
  _merge_similar_actions (_merge_similar_actions actions)
  = _merge_similar_actions actions.
Proof. apply merge_fixed, merge_settled. Qed.

(** X5: the merger leaves a list unchanged exactly when no action of
    the list would absorb the one that follows it. *)
Theorem merge_fixed_exactly_when_settled {table : CaseTable}
    (actions : list DetectedAction.t) :
  _merge_similar_actions actions = actions <-> settled actions.
Proof. apply merge_fixed. Qed.

(** X6: the merged list is never longer than the input, is empty only
    for the empty input, and starts where the input starts. *)
Theorem merge_never_grows {table : CaseTable}
    (actions : list DetectedAction.t) :
  (length (_merge_similar_actions actions) <= length actions)%nat
  /\ (_merge_similar_actions actions = [] <-> actions = [])
  /\ head (map DetectedAction.timestamp_start
             (_merge_similar_actions actions))
     = head (map DetectedAction.timestamp_start actions).
Proof.
  destruct (merge_length actions) as [Hlen Hne].
  split; [done|]. split; [|apply merge_span].
  split; [|by intros ->].
  intros H. destruct actions as [|a l]; [done|]. by destruct Hne.
Qed.

(** X7: on an input ordered by start time whose actions do not end
    before they start, no merged interval ends before it starts. *)
Theorem merge_keeps_intervals_well_formed {table : CaseTable}
    (actions : list DetectedAction.t)
    (Hord : ordered_by_start actions)
    (Hwf : Forall well_formed actions) :
  Forall well_formed (_merge_similar_actions actions).
Proof. by apply merge_well_formed. Qed.

Lemma mixing_actions_ordered : ordered_by_start mixing_actions.
Proof.
  unfold ordered_by_start. cbn.
  repeat (constructor; [|repeat (constructor; [by vm_compute|]); constructor]).
  constructor.
Defined.

(** X7 on the worked input of the merger. *)
Lemma merge_keeps_intervals_well_formed_witness :
  ordered_by_start mixing_actions
  /\ Forall well_formed mixing_actions
  /\ Forall well_formed (_merge_similar_actions mixing_actions).
Proof.
  assert (Hwf : Forall well_formed mixing_actions)
    by (repeat constructor; by vm_compute).
  split; [exact mixing_actions_ordered|]. split; [exact Hwf|].
  exact (merge_keeps_intervals_well_formed mixing_actions
           mixing_actions_ordered Hwf).
Defined.

(** X8: before merging, the agent builds one action per batch of three
    frames, that is as many as the [total_batches] its log announces;
    the result has at most that many actions and is empty exactly when
    no frame is given. *)
Theorem video_sequence_batches {table : CaseTable} (replies : nat -> text)
    (frames : list Frame.t) :
  length (detect_actions replies frames) = total_batches frames
  /\ (length (analyze_video_sequence replies frames)
      <= total_batches frames)%nat
  /\ (analyze_video_sequence replies frames = [] <-> frames = []).
Proof.
  unfold analyze_video_sequence.
  pose proof (detect_actions_length replies frames) as Hlen.
  destruct (merge_length (detect_actions replies frames)) as [Hle Hne].
  split; [done|]. split; [lia|]. split.
  - intros H. destruct frames as [|f l]; [done|]. exfalso.
    apply Hne; [|done]. intros H0. rewrite H0 in Hlen.
    unfold total_batches in Hlen. cbn [length] in Hlen.
    pose proof (Nat.div_str_pos (S (length l) + 2) 3). lia.
  - by intros ->.
Qed.

(** X9: when the frames come in the order of their time stamps, the
    actions the agent returns are ordered by start time and none ends
    before it starts. *)
Theorem video_sequence_ordered {table : CaseTable} (replies : nat -> text)
    (frames : list Frame.t) (Hord : frames_ordered frames) :
  ordered_by_start (analyze_video_sequence replies frames)
  /\ Forall well_formed (analyze_video_sequence replies frames).
Proof.
  unfold analyze_video_sequence. rewrite detect_actions_batches.
  destruct (batch_actions_ordered replies frames 0 Hord) as [Ho Hw].
  split; [by apply merge_ordered | by apply merge_well_formed].
Qed.

(** X9 on five frames two seconds apart. *)
Lemma video_sequence_ordered_witness :
  frames_ordered five_frames
  /\ ordered_by_start (analyze_video_sequence always_mixing five_frames)
  /\ Forall well_formed (analyze_video_sequence always_mixing five_frames).
Proof.
  assert (Hord : frames_ordered five_frames).
  { unfold frames_ordered. cbn.
    repeat (constructor; [|repeat (constructor; [by vm_compute|]); constructor]).
    constructor. }
  split; [exact Hord|].
  exact (video_sequence_ordered always_mixing five_frames Hord).
Defined.

(** X10: the actions the agent returns span the frames: the first
    starts at the time stamp of the first frame and the last ends at
    the time stamp of the last frame. *)
Theorem video_sequence_span {table : CaseTable} (replies : nat -> text)
    (frames : list Frame.t) :
  head (map DetectedAction.timestamp_start
          (analyze_video_sequence replies frames))
  = head (map Frame.timestamp frames)
  /\ last (map DetectedAction.timestamp_end
             (analyze_video_sequence replies frames))
     = last (map Frame.timestamp frames).
Proof.
  unfold analyze_video_sequence.
  destruct (merge_span (detect_actions replies frames)) as [-> ->].
  rewrite detect_actions_batches. apply batch_actions_span.
Qed.

(** X11: an action bound to a step is always one of the detected
    actions, on the parsed path and on the fallback path alike. *)
Theorem bound_action_is_detected {table : CaseTable} (llm_response : text)
    (detected_actions : list DetectedAction.t) (instruction : Instruction.t)
    (matches : list ActionMatch.t)
    (Hrun : match_with_instruction llm_response detected_actions instruction
            = Ok matches) :
  Forall (fun m => forall a,
            ActionMatch.detected_action m = Some a -> a ∈ detected_actions)
    matches.
Proof.
  apply mapM_Ok in Hrun.
  induction Hrun as [|st m steps ms Hm _ IH]; constructor; [|done].
  intros a. by apply (match_step_bound llm_response detected_actions st).
Qed.

(** X11 on the scenario, with a reply in the format. *)
Lemma bound_action_is_detected_witness :
  exists matches,
    match_with_instruction mold_reply mold_actions mold_instruction
    = Ok matches
    /\ Forall (fun m => forall a,
                 ActionMatch.detected_action m = Some a -> a ∈ mold_actions)
         matches.
Proof.
  eexists. split; [by vm_compute|].
  apply (bound_action_is_detected mold_reply mold_actions mold_instruction).
  by vm_compute.
Defined.

(** X12: on a parsed line with a positive verdict, only the first
    number of the time range is read, as an instant: the end of the
    range is never parsed.  The action bound is the first of the list
    that contains the instant; when none contains it, the nearest one,
    the first among equally near ones, provided it is less than 30
    seconds away, the distance taken from the start or the end of the
    action, whichever is nearer, in floats.  No action is bound when
    none contains the instant and all are 30 seconds or more away, when
    the line has no time range or when the range holds no number. *)
Theorem positive_verdict_binds_at_instant {table : CaseTable}
    (llm_response : text) (detected_actions : list DetectedAction.t)
    (st : InstructionStep.t) (g : Re.groups) (m : ActionMatch.t)
    (Hparse : Re.search true (step_pattern (InstructionStep.step_number st))
                llm_response = Some g)
    (Hmatch : match_step llm_response detected_actions st = Ok m)
    (Hpositive : ActionMatch.matched m = true) :
  binds_at_instant g detected_actions m.
Proof.
  exact (match_step_positive llm_response detected_actions st g m
           Hparse Hmatch Hpositive).
Qed.

(** X12 on two actions around the instant 82: the range [82.0с-90.0с]
    is read as the instant 82, which lies 17 seconds from the first
    action and 18 seconds from the second; the first is bound. *)
Lemma positive_verdict_binds_at_instant_witness :
  exists g m,
    Re.search true (step_pattern 1) apart_reply = Some g
    /\ match_step apart_reply apart_actions (step 1 "prepare mold") = Ok m
    /\ ActionMatch.matched m = true
    /\ ActionMatch.detected_action m = Some (action 60 65 "preparing the mold")
    /\ binds_at_instant g apart_actions m.
Proof.
  eexists _, _. split; [by vm_compute|]. split; [by vm_compute|].
  split; [reflexivity|]. split; [reflexivity|].
  apply (positive_verdict_binds_at_instant apart_reply apart_actions
           (step 1 "prepare mold")); by vm_compute.
Defined.

(** X13: on a parsed line the verdict, upper-cased, is one of the six
    tokens of the format; the step is matched exactly when it is DA, YES
    or ДА, whatever the detected actions are; otherwise the step is
    unmatched without error, bound to no action, and its deviation is
    the stripped comment of the line, if any. *)
Theorem verdict_decides_match {table : CaseTable} (llm_response : text)
    (detected_actions : list DetectedAction.t) (st : InstructionStep.t)
    (g : Re.groups)
    (Hparse : Re.search true (step_pattern (InstructionStep.step_number st))
                llm_response = Some g) :
  exists verdict,
    g !! 1%nat = Some verdict
    /\ Re.upper verdict ∈ verdict_tokens
    /\ (forall m, match_step llm_response detected_actions st = Ok m ->
          (ActionMatch.matched m = true <-> Re.upper verdict ∈ positive_tokens))
    /\ (Re.upper verdict ∉ positive_tokens ->
        match_step llm_response detected_actions st
        = Ok (ActionMatch.mk (InstructionStep.step_number st) false None
                (comment_deviation g))).
Proof. by apply match_step_verdict. Qed.

(** X13 on step 2 of the scenario, whose line says NET. *)
Lemma verdict_decides_match_witness :
  exists g verdict,
    Re.search true (step_pattern 2) mold_reply = Some g
    /\ g !! 1%nat = Some verdict
    /\ Re.upper verdict ∈ verdict_tokens.
Proof.
  eexists _.
  assert (H : Re.search true (step_pattern 2) mold_reply
              = Some (default ∅ (Re.search true (step_pattern 2) mold_reply)))
    by (by vm_compute).
  destruct (verdict_decides_match mold_reply mold_actions
              (step 2 "pour mixture") _ H) as (verdict & Hv & Htok & _).
  exists verdict. split; [exact H|]. split; [exact Hv | exact Htok].
Defined.

(** X14: the matcher raises only [ValueError], and only for a step
    whose line parses with a positive verdict and a time range whose
    first number is malformed (such as [1.2.3] or a lone dot). *)
Theorem matcher_errors_are_malformed_numbers {table : CaseTable}
    (llm_response : text) (detected_actions : list DetectedAction.t)
    (instruction : Instruction.t) (e : exn)
    (Hraise : match_with_instruction llm_response detected_actions instruction
              = Raise e) :
  exists st,
    st ∈ Instruction.steps instruction
    /\ malformed_number llm_response st e.
Proof.
  apply errors_come_from_parsed_lines in Hraise as (st & Hin & _ & Hst).
  exists st. split; [done|]. by eapply match_step_raise.
Qed.

(** X14 on a reply with the range [1.2.3]. *)
Lemma matcher_errors_are_malformed_numbers_witness :
  match_with_instruction dotted_reply mold_actions mold_instruction
  = Raise (ValueError (utf8 "1.2.3"))
  /\ exists st,
       st ∈ Instruction.steps mold_instruction
       /\ malformed_number dotted_reply st (ValueError (utf8 "1.2.3")).
Proof.
  assert (H : match_with_instruction dotted_reply mold_actions mold_instruction
              = Raise (ValueError (utf8 "1.2.3"))) by (by vm_compute).
  split; [exact H|].
  exact (matcher_errors_are_malformed_numbers dotted_reply mold_actions
           mold_instruction _ H).
Defined.

(** X15: when no line of the reply parses, the matcher returns without
    error, every step is resolved by the similarity fallback, and the
    missing steps of the batch driver are, in checklist order, the
    steps against which no detected action scores above 0.25. *)
Theorem missing_steps_of_unparsed_reply {table : CaseTable}
    (llm_response : text) (detected_actions : list DetectedAction.t)
    (instruction : Instruction.t)
    (Hparse : Forall (unparsed llm_response) (Instruction.steps instruction)) :
  exists matches,
    match_with_instruction llm_response detected_actions instruction
    = Ok matches
    /\ Forall2 (fun st m => fallback_outcome st detected_actions m)
         (Instruction.steps instruction) matches
    /\ missing_steps matches
       = map InstructionStep.step_number
           (filter (fun st => reaches_threshold detected_actions st = false)
              (Instruction.steps instruction)).
Proof. by apply match_unparsed_missing. Qed.

(** X15 on the scenario, with a reply out of format. *)
Lemma missing_steps_of_unparsed_reply_witness :
  Forall (unparsed free_reply) (Instruction.steps mold_instruction)
  /\ exists matches,
       match_with_instruction free_reply mold_actions mold_instruction
       = Ok matches
       /\ missing_steps matches
          = map InstructionStep.step_number
              (filter (fun st => reaches_threshold mold_actions st = false)
                 (Instruction.steps mold_instruction)).
Proof.
  assert (H : Forall (unparsed free_reply) (Instruction.steps mold_instruction))
    by (repeat constructor; by vm_compute).
  split; [exact H|].
  destruct (missing_steps_of_unparsed_reply free_reply mold_actions
              mold_instruction H) as (matches & Hrun & _ & Hmiss).
  exists matches. split; [exact Hrun | exact Hmiss].
Defined.

(** X16: in every session the completed steps are the numbers of the
    first [current_step] steps of the checklist, in checklist order, so
    their count is the cursor. *)
Theorem completed_steps_follow_checklist {table : CaseTable}
    (instruction : Instruction.t) (analysis_interval : Q)
    (frames : list (text * Q)) :
  let self := (run (init instruction analysis_interval) frames).1 in
  completed_steps self
  = map InstructionStep.step_number
      (take (current_step self) (Instruction.steps instruction))
  /\ length (completed_steps self) = current_step self.
Proof.
  intros self.
  pose proof (run_order frames (init instruction analysis_interval)) as Hord.
  pose proof (run_effect frames (init instruction analysis_interval))
    as (Hi & _ & _ & Hb & _).
  fold self in Hord, Hi, Hb. unfold in_checklist_order, steps_of in *.
  rewrite Hi in Hord. cbn in Hord, Hb.
  rewrite Hord by done. split; [done|].
  rewrite length_map, length_take. specialize (Hb ltac:(lia)). lia.
Qed.

(** X17: the status of a call is decided by the state before the call
    and the description observed: completed when the cursor is past the
    last step; step_completed when the expected step scores above 0.3;
    warning when it does not but a later step does; in_progress when
    neither the expected step nor any later step does, whatever earlier
    steps score; never waiting. *)
Theorem status_follows_state_and_observation {table : CaseTable}
    (self : LiveAnalyzer.t) (description : text) (timestamp : Q) :
  status_decided self description
    (analyze_frame self description timestamp).2.
Proof. apply analyze_frame_status. Qed.

(** X18: over a session the cursor advances by the number of calls that
    returned step_completed, hence by at most one per call: a checklist
    cannot be completed in fewer calls than it has steps. *)
Theorem cursor_counts_completed_calls {table : CaseTable}
    (self : LiveAnalyzer.t) (frames : list (text * Q)) :
  current_step (run self frames).1
  = (current_step self + count_status "step_completed" (run self frames).2)%nat
  /\ (current_step (run self frames).1
      <= current_step self + length frames)%nat.
Proof.
  destruct (run_counts frames self) as (Hc & _ & _ & Hl).
  split; [done|]. rewrite Hc, <- Hl. unfold count_status.
  pose proof (length_filter (has_status "step_completed") (run self frames).2).
  lia.
Qed.

(** X19: the warning log only grows, and over a session it grows by the
    number of calls that returned the warning status. *)
Theorem warnings_log_counts_warning_calls {table : CaseTable}
    (self : LiveAnalyzer.t) (frames : list (text * Q)) :
  warnings self `prefix_of` warnings (run self frames).1
  /\ length (warnings (run self frames).1)
     = (length (warnings self) + count_status "warning" (run self frames).2)%nat.
Proof. destruct (run_counts frames self) as (_ & Hw & Hp & _). done. Qed.

(** X20: after a call at time [timestamp], [should_analyze] holds at a
    time exactly when the difference of that time and [timestamp], as
    the floats subtract them, is at least [analysis_interval]; on a
    fresh tracker the difference is taken from time 0. *)
Theorem analysis_is_rate_limited {table : CaseTable} (self : LiveAnalyzer.t)
    (description : text) (timestamp current_time : Q)
    (instruction : Instruction.t) (interval : Q) :
  (should_analyze (analyze_frame self description timestamp).1 current_time
   = true
   <-> analysis_interval self <= fsub current_time timestamp)
  /\ (should_analyze (init instruction interval) current_time = true
      <-> interval <= fsub current_time 0).
Proof.
  pose proof (analyze_frame_effect self description timestamp)
    as (_ & _ & _ & Ht & _).
  pose proof (analyze_frame_cases self description timestamp) as (Hi & _).
  unfold should_analyze. rewrite Ht, Hi, !Qleb_le. done.
Qed.

(** X21: a session that observes, one after the other, the descriptions
    of the steps themselves completes the checklist in as many calls as
    it has steps, provided every description has at least one word. *)
Theorem own_descriptions_complete_checklist {table : CaseTable}
    (instruction : Instruction.t) (analysis_interval : Q) (times : list Q)
    (Hlen : length times = length (Instruction.steps instruction))
    (Hwords : Forall (fun st =>
                 split (lower (InstructionStep.description st)) <> [])
                (Instruction.steps instruction)) :
  let session :=
    run (init instruction analysis_interval)
      (zip (map InstructionStep.description (Instruction.steps instruction))
         times) in
  current_step session.1 = length (Instruction.steps instruction)
  /\ completed_steps session.1
     = map InstructionStep.step_number (Instruction.steps instruction)
  /\ Forall (has_status "step_completed") session.2.
Proof.
  exact (run_own_descriptions (Instruction.steps instruction) times
           (init instruction analysis_interval) [] eq_refl eq_refl Hlen Hwords).
Qed.

(** X21 on the checklist of the scenario. *)
Lemma own_descriptions_complete_checklist_witness :
  let session :=
    run (init mold_instruction 5)
      (zip (map InstructionStep.description mold_steps) [1; 7]) in
  length [1; 7] = length (Instruction.steps mold_instruction)
  /\ Forall (fun st => split (lower (InstructionStep.description st)) <> [])
       (Instruction.steps mold_instruction)
  /\ current_step session.1 = 2%nat
  /\ completed_steps session.1 = [1; 2]%Z.
Proof.
  assert (H : Forall (fun st =>
                split (lower (InstructionStep.description st)) <> [])
               (Instruction.steps mold_instruction))
    by (repeat constructor; by vm_compute).
  destruct (own_descriptions_complete_checklist mold_instruction 5 [1; 7]
              eq_refl H) as (Hc & Hd & _).
  split; [reflexivity|]. split; [exact H|]. split; [exact Hc | exact Hd].
Defined.

(** X22: over a session the squat counter grows by the number of
    stand-ups, the places where a frame seen as SQUATTING is directly
    followed by one seen as STANDING; a frame of UNKNOWN state in
    between cancels the squat.  The state kept is that of the last
    frame. *)
Theorem squat_count_counts_stand_ups {table : SquatsCounter.UpperTable}
    (self : SquatsCounter.t) (frames : list (text * Q)) :
  let states :=
    map (fun f => SquatsCounter._detect_squat_state f.1) frames in
  SquatsCounter.squat_count (SquatsCounter.run self frames)
  = (SquatsCounter.squat_count self
     + SquatsCounter.stand_ups
         (SquatsCounter.current_state self :: states))%nat
  /\ Some (SquatsCounter.current_state (SquatsCounter.run self frames))
     = last (SquatsCounter.current_state self :: states).
Proof. apply run_count. Qed.

(** X23: a fresh counter counts at most one squat per two analysed
    frames. *)
Theorem squat_count_at_most_half_the_calls
    {table : SquatsCounter.UpperTable} (analysis_interval : Q)
    (frames : list (text * Q)) :
  (2 * SquatsCounter.squat_count
         (SquatsCounter.run (SquatsCounter.init analysis_interval) frames)
   <= length frames)%nat.
Proof.
  destruct (run_count frames (SquatsCounter.init analysis_interval))
    as [-> _].
  pose proof (stand_ups_bound SquatsCounter.UNKNOWN
                (map (fun f => SquatsCounter._detect_squat_state f.1) frames))
    as H.
  rewrite length_map, bool_decide_eq_false_2 in H by done.
  cbn [SquatsCounter.init SquatsCounter.squat_count
       SquatsCounter.current_state]. lia.
Qed.

(** X24: the state read from a reply depends on four words only: it is
    STANDING when the upper-cased reply contains СТОИТ or STANDING, even
    if it also mentions a squat; else SQUATTING when it contains ПРИСЕД
    or SQUAT; else UNKNOWN.  The test for ПРИСЕДАЕТ never decides. *)
Theorem squat_state_detection {table : SquatsCounter.UpperTable}
    (content : text) :
  let answer := SquatsCounter.upper (strip content) in
  SquatsCounter._detect_squat_state content
  = if SquatsCounter.contains (utf8 "СТОИТ") answer
       || SquatsCounter.contains (utf8 "STANDING") answer
    then SquatsCounter.STANDING
    else if SquatsCounter.contains (utf8 "ПРИСЕД") answer
            || SquatsCounter.contains (utf8 "SQUAT") answer
    then SquatsCounter.SQUATTING
    else SquatsCounter.UNKNOWN.
Proof.
  intros answer. unfold SquatsCounter._detect_squat_state. fold answer.
  destruct (_ || _); [done|].
  destruct (SquatsCounter.contains (utf8 "ПРИСЕДАЕТ") answer) eqn:H; [|done].
  change (utf8 "ПРИСЕДАЕТ") with (utf8 "ПРИСЕД" ++ utf8 "АЕТ") in H.
  apply contains_prefix in H. by rewrite H.
Qed.

(** ** Rounded differences against exact ones *)

Lemma round64_ten : Float64.round64 10 == 10.
Proof. by vm_compute. Qed.

Lemma far_apart_settled {table : CaseTable}
    (actions : list DetectedAction.t) :
  far_apart actions -> settled actions.
Proof.
  induction actions as [|a rest IH]; [done|].
  destruct rest as [|b rest]; [done|].
  intros [Hgap Hrest]. split; [|by apply IH].
  unfold absorbs. apply andb_false_iff. left. apply Qltb_ge.
  apply fsub_ge; [exact round64_ten | done].
Qed.

(** An action is absorbed only when it truly starts less than 10
    seconds after the open interval ends. *)
Lemma absorbed_within_ten {table : CaseTable}
    (current action : DetectedAction.t) :
  absorbs current action = true ->
  DetectedAction.timestamp_start action
  - DetectedAction.timestamp_end current < 10.
Proof.
  unfold absorbs. intros H. apply andb_true_iff in H as [H _].
  apply Qltb_lt in H. by apply (fsub_lt _ _ 10 round64_ten).
Qed.

(** The gap test rounds: the doubles [0.1] and [10.1] are less than 10
    apart, their float difference is 10, and the two actions are not
    merged although their descriptions are the same. *)
Lemma rounded_gap_not_merged :
  literal (101 # 10) - literal (1 # 10) < 10
  /\ fsub (literal (101 # 10)) (literal (1 # 10)) == 10
  /\ _merge_similar_actions tenth_actions = tenth_actions.
Proof. split; [by vm_compute|]. split; by vm_compute. Qed.

(** The rate limit rounds: the doubles [0.1] and [5.1] are less than 5
    apart, and a tracker of interval 5 that analysed a frame at [0.1] is
    due again at [5.1]. *)
Lemma rounded_interval_is_due :
  literal (51 # 10) - literal (1 # 10) < 5
  /\ should_analyze
       (analyze_frame (init mold_instruction 5) (utf8 "mixing")
          (literal (1 # 10))).1
       (literal (51 # 10)) = true.
Proof. split; by vm_compute. Qed.

(** X25: once at least [analysis_interval], a double, has passed since
    the last analysed frame, the differences taken exactly,
    [should_analyze] holds: rounding never delays an analysis. *)
Theorem analysis_due_once_interval_passed {table : CaseTable}
    (self : LiveAnalyzer.t) (description : text) (timestamp current_time : Q)
    (Hdouble : Float64.round64 (analysis_interval self)
               == analysis_interval self)
    (Hpassed : analysis_interval self <= current_time - timestamp) :
  should_analyze (analyze_frame self description timestamp).1 current_time
  = true.
Proof.
  pose proof (analyze_frame_effect self description timestamp)
    as (_ & _ & _ & Ht & _).
  pose proof (analyze_frame_cases self description timestamp) as (Hi & _).
  unfold should_analyze. rewrite Ht, Hi, Qleb_le. by apply fsub_ge.
Qed.

(** X25 on a tracker of interval 5, analysed at 1 and asked at 6. *)
Lemma analysis_due_once_interval_passed_witness :
  Float64.round64 (analysis_interval (init mold_instruction 5))
  == analysis_interval (init mold_instruction 5)
  /\ analysis_interval (init mold_instruction 5) <= 6 - 1
  /\ should_analyze
       (analyze_frame (init mold_instruction 5) (utf8 "mixing") 1).1 6
     = true.
Proof.
  assert (Hdouble : Float64.round64 (analysis_interval (init mold_instruction 5))
                    == analysis_interval (init mold_instruction 5))
    by (by vm_compute).
  assert (Hpassed : analysis_interval (init mold_instruction 5) <= 6 - 1)
    by (by vm_compute).
  split; [exact Hdouble|]. split; [exact Hpassed|].
  exact (analysis_due_once_interval_passed (init mold_instruction 5)
           (utf8 "mixing") 1 6 Hdouble Hpassed).
Defined.

(** X26: actions each starting 10 seconds or more after the one before
    it ends, the differences taken exactly, are never merged, whatever
    their descriptions: the merger returns its input. *)
Theorem far_apart_actions_not_merged {table : CaseTable}
    (actions : list DetectedAction.t) (Hfar : far_apart actions) :
  _merge_similar_actions actions = actions.
Proof. by apply merge_fixed, far_apart_settled. Qed.

(** X26 on three actions of the same description, 10 seconds apart. *)
Lemma far_apart_actions_not_merged_witness :
  far_apart spaced_actions
  /\ _merge_similar_actions spaced_actions = spaced_actions.
Proof.
  assert (Hfar : far_apart spaced_actions).
  { split; [by vm_compute|]. split; [by vm_compute | exact I]. }
  split; [exact Hfar|].
  exact (far_apart_actions_not_merged spaced_actions Hfar).
Defined.
